(** * Camara-ANPR: the plate search engine of [anpr_easyocr.py]

    A shallow embedding of [ArgentinePlateRecognizer] and the properties of
    its normalizer, format validator, ambiguity expander and tiered
    candidate search.

    Python strings are lists of Unicode code points; the Unicode tables
    beyond ASCII are a parameter ([UnicodeData]), the decompositions of
    Latin-1 apart, which are written out.  Subscripts that can
    raise ([text[0]], [cleaned_texts[i]], [min] of an empty sequence) are
    modelled in an error monad, so that "no exception escapes" is a theorem
    and not an artefact of the embedding.  The OCR reader and the file
    system are seen through what they return ([image_file]). *)

From Stdlib Require Import QArith Ascii.
From stdpp Require Import base option list numbers gmap strings sorting.

Local Open Scope nat_scope.

(** ** Python strings *)

Abbreviation char := N (only parsing).
Abbreviation str := (list N) (only parsing).

(** A Python literal made of ASCII characters. *)
Definition py (s : string) : str :=
  map Ascii.N_of_ascii (String.list_ascii_of_string s).
Arguments py s%_string.

Definition chr (a : Ascii.ascii) : char := Ascii.N_of_ascii a.
Arguments chr a%_char.

(** [text[a:b]] and [text[a:]] for [0 <= a <= b]; slices never raise. *)
Definition slice (a b : nat) (text : str) : str := take (b - a) (drop a text).
Definition slice_from (a : nat) (text : str) : str := drop a text.

(** ** Exceptions *)

Inductive exn := IndexError | ValueError.

Inductive result (A : Type) :=
| Ok (a : A)
| Raise (e : exn).
Arguments Ok {A} a.
Arguments Raise {A} e.

#[global] Instance result_ret : MRet result := fun A a => Ok a.
#[global] Instance result_bind : MBind result :=
  fun A B f r => match r with Ok a => f a | Raise e => Raise e end.

(** [seq[i]] for a non-negative index. *)
Definition getitem {A} (l : list A) (i : nat) : result A :=
  match l !! i with
  | Some x => Ok x
  | None => Raise IndexError
  end.

(** A statement of a function body either falls through ([None]) or
    executes [return v] ([Some v]); [s1 ;;; s2] runs [s2] only when [s1]
    fell through. *)
Definition and_then {B} (s1 s2 : result (option B)) : result (option B) :=
  r ← s1; match r with Some v => Ok (Some v) | None => s2 end.
Notation "s1 ;;; s2" := (and_then s1 s2)
  (at level 100, s2 at level 200, right associativity).

(** [for x in xs: body] where the body may [return]. *)
Fixpoint for_in {A B} (xs : list A) (body : A -> result (option B))
  : result (option B) :=
  match xs with
  | [] => Ok None
  | x :: xs' => body x ;;; for_in xs' body
  end.

(** [if c: return v]. *)
Definition return_if {B} (c : bool) (v : B) : result (option B) :=
  Ok (if c then Some v else None).

(** [len(l)] as a Python integer. *)
Definition len {A} (l : list A) : Z := Z.of_nat (length l).

(** [range(stop)] and [range(start, stop)]; Python integers are unbounded
    and a non-positive extent gives the empty range. *)
Definition range (stop : Z) : list nat := seq 0 (Z.to_nat stop).
Definition range2 (start stop : Z) : list nat :=
  seq (Z.to_nat start) (Z.to_nat (stop - start)).

(** [itertools.product] of the pools: the rightmost pool advances fastest. *)
Fixpoint product {A} (pools : list (list A)) : list (list A) :=
  match pools with
  | [] => [[]]
  | pool :: rest => flat_map (fun x => map (cons x) (product rest)) pool
  end.

(** [itertools.permutations(pool, 2)]: the pairs of elements at two
    different positions, in lexicographic order of the positions. *)
Definition enumerate {A} (l : list A) : list (nat * A) :=
  zip (seq 0 (length l)) l.
Definition permutations2 {A} (pool : list A) : list (A * A) :=
  flat_map (fun ia =>
    flat_map (fun jb =>
      if Nat.eqb ia.1 jb.1 then [] else [(ia.2, jb.2)]) (enumerate pool))
    (enumerate pool).

(** The pairs [(l[i], l[j])] with [i < j], in lexicographic order of
    [(i, j)]. *)
Fixpoint ordered_pairs {A} (l : list A) : list (A * A) :=
  match l with
  | [] => []
  | a :: l' => map (pair a) l' ++ ordered_pairs l'
  end.

(** The substrings of length [L] of [s], from left to right. *)
Fixpoint windows {A} (L : nat) (s : list A) : list (list A) :=
  match s with
  | [] => []
  | _ :: s' => if Nat.leb L (length s) then take L s :: windows L s' else []
  end.

(** ** Unicode data

    [str.isalpha], [str.isdigit] and [unicodedata.normalize] consult the
    Unicode character database.  Its ASCII part, and the decompositions of
    the Latin-1 Supplement, are written out below; the rest of the tables
    is a parameter of the development. *)

Class UnicodeData := {
  unicode_isalpha : N -> bool;     (* is a code point above 127 a letter *)
  unicode_isdigit : N -> bool;     (* is a code point above 127 a digit *)
  unicode_nfkd : list N -> list N; (* NFKD of text with code points above 255 *)
}.

Definition is_ascii (c : char) : bool := (c <? 128)%N.
Definition in_range (lo hi c : N) : bool := ((lo <=? c) && (c <=? hi))%N.

Definition is_upper_AZ (c : char) : bool := in_range 65 90 c.
Definition is_lower_az (c : char) : bool := in_range 97 122 c.
Definition is_digit_09 (c : char) : bool := in_range 48 57 c.

Definition is_latin1 (c : char) : bool := (c <? 256)%N.

(** The compatibility decompositions of the Latin-1 Supplement
    (U+0080-U+00FF): an accented letter gives the letter and a combining
    mark (U+0300-U+0327); the no-break space, the spacing accents, the
    ordinal indicators, the superscript digits, the micro sign and the
    fractions give their compatibility forms.  The other code points below
    U+0100 have no decomposition. *)
Definition latin1_decompositions : gmap N (list N) :=
  list_to_map
    [ (160, [32]); (168, [32; 776]); (170, [97]); (175, [32; 772]);
      (178, [50]); (179, [51]); (180, [32; 769]); (181, [956]);
      (184, [32; 807]); (185, [49]); (186, [111]); (188, [49; 8260; 52]);
      (189, [49; 8260; 50]); (190, [51; 8260; 52]); (192, [65; 768]);
      (193, [65; 769]); (194, [65; 770]); (195, [65; 771]); (196, [65; 776]);
      (197, [65; 778]); (199, [67; 807]); (200, [69; 768]); (201, [69; 769]);
      (202, [69; 770]); (203, [69; 776]); (204, [73; 768]); (205, [73; 769]);
      (206, [73; 770]); (207, [73; 776]); (209, [78; 771]); (210, [79; 768]);
      (211, [79; 769]); (212, [79; 770]); (213, [79; 771]); (214, [79; 776]);
      (217, [85; 768]); (218, [85; 769]); (219, [85; 770]); (220, [85; 776]);
      (221, [89; 769]); (224, [97; 768]); (225, [97; 769]); (226, [97; 770]);
      (227, [97; 771]); (228, [97; 776]); (229, [97; 778]); (231, [99; 807]);
      (232, [101; 768]); (233, [101; 769]); (234, [101; 770]);
      (235, [101; 776]); (236, [105; 768]); (237, [105; 769]);
      (238, [105; 770]); (239, [105; 776]); (241, [110; 771]);
      (242, [111; 768]); (243, [111; 769]); (244, [111; 770]);
      (245, [111; 771]); (246, [111; 776]); (249, [117; 768]);
      (250, [117; 769]); (251, [117; 770]); (252, [117; 776]);
      (253, [121; 769]); (255, [121; 776]) ]%N.

(** The decomposition of one code point below U+0100. *)
Definition nfkd_latin1 (c : char) : list char :=
  default [c] (latin1_decompositions !! c).

(** White space as [str.isspace] has it. *)
Definition char_isspace (c : char) : bool :=
  in_range 9 13 c || in_range 28 32 c || (c =? 133)%N || (c =? 160)%N
  || (c =? 5760)%N || in_range 8192 8202 c || (c =? 8232)%N
  || (c =? 8233)%N || (c =? 8239)%N || (c =? 8287)%N || (c =? 12288)%N.

#[global] Instance Qle_decision (x y : Q) : Decision (x <= y)%Q.
Proof.
  destruct (Qle_bool x y) eqn:H.
  - left. by apply Qle_bool_iff.
  - right. intros Hle%Qle_bool_iff. congruence.
Defined.

#[global] Instance Qeq_decision (x y : Q) : Decision (x == y)%Q :=
  Qeq_dec x y.

(** One OCR result [(bbox, text, prob)]: the corners of the bounding box,
    the text read and its confidence; finite floats are rationals. *)
Abbreviation fragment := (list (Q * Q) * list N * Q)%type (only parsing).

(** The configuration that [__init__] stores. *)
Record ArgentinePlateRecognizer := {
  max_horizontal_gap : Q;
  min_confidence : Q;
}.

(** The recognizer as [ArgentinePlateRecognizer()] builds it. *)
Definition default_recognizer : ArgentinePlateRecognizer :=
  {| max_horizontal_gap := 40; min_confidence := 1 # 2 |}.

(** Tables that know no letter or digit beyond ASCII and, beyond Latin-1,
    decompose only the compatibility spaces (to U+0020).  The examples below
    use Latin-1 text and white space, for which nothing else is consulted. *)
Definition compat_space (c : char) : bool :=
  (c =? 160)%N || in_range 8192 8202 c || (c =? 8239)%N || (c =? 8287)%N
  || (c =? 12288)%N.
Definition ascii_tables : UnicodeData :=
  {| unicode_isalpha := fun _ => false;
     unicode_isdigit := fun _ => false;
     unicode_nfkd := map (fun c => if compat_space c then 32%N else c) |}.

(** A bounding box whose top edge is at height [y]. *)
Definition box (y : Z) : list (Q * Q) :=
  [ (10 # 1, y # 1); (90 # 1, y # 1);
    (90 # 1, (y + 20) # 1); (10 # 1, (y + 20) # 1) ]%Q.

(** Sample OCR results. *)
Definition priority_group : list fragment :=
  [ (box 10, py "ABC", 9 # 10); (box 50, py "12345", 9 # 10) ].
Definition precedence_group : list fragment :=
  [ (box 10, py "AB1", 9 # 10); (box 40, py "23CD", 8 # 10);
    (box 70, py "ABC", 9 # 10); (box 100, py "12345", 9 # 10) ].
Definition standard_group : list fragment :=
  [ (box 10, py "AB1", 9 # 10); (box 40, py "23CD", 8 # 10) ].
Definition faint_group : list fragment :=
  [ (box 10, py "AB", 9 # 10); (box 40, py "123CD", 1 # 10) ].
Definition hello_group : list fragment :=
  [ (box 10, py "HELLO", 9 # 10) ].

(** The results of [priority_group] as a reader might list them, bottom
    first; and a result whose box has no corner. *)
Definition shuffled_group : list fragment :=
  [ (box 50, py "12345", 9 # 10); (box 10, py "ABC", 9 # 10) ].
Definition cornerless_group : list fragment :=
  [ (box 10, py "ABC", 9 # 10); ([], py "12345", 9 # 10) ].

(** Two results at the same height, and a reading that needs correction. *)
Definition level_group : list fragment :=
  [ (box 10, py "AB1", 9 # 10); (box 10, py "23CD", 8 # 10) ].
Definition ambiguous_group : list fragment :=
  [ (box 10, py "O8C", 9 # 10); (box 40, py "45Z", 8 # 10) ].

(** Two halves of a plate below a stray reading, and a plate below a
    word. *)
Definition trailing_group : list fragment :=
  [ (box 10, py "XY", 9 # 10); (box 40, py "AB1", 9 # 10);
    (box 70, py "23CD", 8 # 10) ].
Definition word_group : list fragment :=
  [ (box 10, py "HELLO", 9 # 10); (box 40, py "AB123CD", 9 # 10) ].

(** Two halves of a plate, listed bottom first. *)
Definition reversed_group : list fragment :=
  [ (box 40, py "23CD", 8 # 10); (box 10, py "AB1", 9 # 10) ].

Section Recognizer.

Context {U : UnicodeData}.

Definition char_isalpha (c : char) : bool :=
  if is_ascii c then is_upper_AZ c || is_lower_az c else unicode_isalpha c.

Definition char_isdigit (c : char) : bool :=
  if is_ascii c then is_digit_09 c else unicode_isdigit c.

(** [s.isalpha()], [s.isdigit()]: every character is in the class and
    there is at least one character. *)
Definition isalpha (s : str) : bool :=
  negb (Nat.eqb (length s) 0) && forallb char_isalpha s.
Definition isdigit (s : str) : bool :=
  negb (Nat.eqb (length s) 0) && forallb char_isdigit s.

(** [unicodedata.normalize("NFKD", text)]: ASCII characters have no
    decomposition and combining class 0, so ASCII text is its own NFKD.  The
    decomposition of a Latin-1 character begins with a starter and has at
    most one combining mark, its last character: in Latin-1 text no two
    marks meet, nothing is reordered, and the text decomposes character by
    character. *)
Definition normalize_NFKD (text : str) : str :=
  if forallb is_ascii text then text
  else if forallb is_latin1 text then flat_map nfkd_latin1 text
  else unicode_nfkd text.

(** [.encode("ascii", "ignore").decode("ascii")] *)
Definition encode_ascii_ignore (text : str) : str :=
  filter (fun c => Is_true (is_ascii c)) text.

(** [str.upper] on ASCII text. *)
Definition upper_char (c : char) : char :=
  if is_lower_az c then (c - 32)%N else c.
Definition upper (text : str) : str := map upper_char text.

(** [re.sub(r'[^A-Z0-9]', '', text)] *)
Definition keeps (c : char) : bool := is_upper_AZ c || is_digit_09 c.
Definition re_sub_non_alnum (text : str) : str :=
  filter (fun c => Is_true (keeps c)) text.

Definition clean_text (text : str) : str :=
  let text := encode_ascii_ignore (normalize_NFKD text) in
  let text := upper text in
  re_sub_non_alnum text.

(** ** Format validator *)

Definition validate_plate_format (text : str) : result bool :=
  if Nat.eqb (length text) 6 then
    Ok (isalpha (slice 0 3 text) && isdigit (slice_from 3 text))
  else if Nat.eqb (length text) 7 then
    if isalpha (slice 0 2 text) && isdigit (slice 2 5 text)
       && isalpha (slice_from 5 text)
    then Ok true
    else
      c0 ← getitem text 0;
      if isalpha [c0] && isdigit (slice 1 4 text) && isalpha (slice_from 4 text)
      then Ok true
      else Ok false
  else if Nat.eqb (length text) 8 then
    c0 ← getitem text 0;
    Ok (isalpha [c0] && isdigit (slice 1 4 text) && isalpha (slice_from 4 text))
  else Ok false.

(** ** Ambiguity expander *)

(** The dictionary literal of [__init__]; each variant is a one-character
    string. *)
Definition ambiguous_table : list (char * list char) :=
  [ (chr "0", py "0OD"); (chr "O", py "O0D"); (chr "D", py "DO0");
    (chr "1", py "1IL"); (chr "I", py "I1L"); (chr "L", py "L1I");
    (chr "2", py "2Z"); (chr "Z", py "Z2");
    (chr "5", py "5S"); (chr "S", py "S5");
    (chr "8", py "8B"); (chr "B", py "B8");
    (chr "4", py "4A"); (chr "A", py "A4");
    (chr "V", py "VY"); (chr "Y", py "YV");
    (chr "N", py "NM"); (chr "M", py "MN");
    (chr "C", py "CG"); (chr "G", py "GC") ].

Definition ambiguous_map : gmap N (list N) := list_to_map ambiguous_table.

Definition ignore_words : gset (list N) :=
  list_to_set (map py
    [ "ARGENTINA"; "REPUBLICA"; "MERCOSUR"; "AUTOMOTOR"; "NACIONAL";
      "BLOG"; "CO"; "WWW"; "FECOSUR"; "FECOSURR"; "DE"; "DEL"; "OFICIAL";
      "VEHICULO"; "VEHICULOS"; "GOBIERNO"; "PODER"; "EJECUTIVO" ]%string).

Definition options_for (c : char) : list char :=
  match ambiguous_map !! c with
  | Some variants => variants
  | None => [c]
  end.

(** The generator is modelled by the list of what it yields, in order. *)
Definition generate_ambiguity_variants (text : str) : list str :=
  let options := map options_for text in
  product options.

(** ** Grouping *)

Definition Qlt_bool (a b : Q) : bool := negb (Qle_bool b a).

(** [min(pt[1] for pt in bbox)] *)
Definition min_y (bbox : list (Q * Q)) : result Q :=
  match bbox with
  | [] => Raise ValueError
  | pt :: pts =>
      Ok (foldl (fun m pt' => if Qlt_bool pt'.2 m then pt'.2 else m) pt.2 pts)
  end.

Fixpoint with_keys (results : list fragment) : result (list (Q * fragment)) :=
  match results with
  | [] => Ok []
  | r :: rs => k ← min_y r.1.1; ks ← with_keys rs; Ok ((k, r) :: ks)
  end.

(** [sorted(_, key=...)] is stable: equal keys keep their input order. *)
Fixpoint insert_by_key (x : Q * fragment) (l : list (Q * fragment))
  : list (Q * fragment) :=
  match l with
  | [] => [x]
  | y :: l' => if Qlt_bool y.1 x.1 then y :: insert_by_key x l' else x :: l
  end.
Definition sorted_by_key (l : list (Q * fragment)) : list (Q * fragment) :=
  foldr insert_by_key [] l.

Definition group_close_texts (results : list fragment)
  : result (list (list fragment)) :=
  keyed ← with_keys results;
  let results := map snd (sorted_by_key keyed) in
  let groups := map (fun res => [res]) results in
  Ok groups.

(** ** Candidate search *)

Variable self : ArgentinePlateRecognizer.

Definition should_ignore (txt : str) : bool :=
  bool_decide (txt ∈ ignore_words) || Nat.ltb 8 (length txt).

Definition original_texts (group : list fragment) : list (list N * Q) :=
  flat_map (fun f =>
    let '(_, t, p) := f in
    if Qle_bool (min_confidence self) p && negb (should_ignore (clean_text t))
    then [(clean_text t, p)] else []) group.

Definition cleaned_texts (group : list fragment) : list str :=
  map fst (original_texts group).

(** The test of the priority rule. *)
Definition priority_rule (raw_combined : str) : bool :=
  Nat.eqb (length raw_combined) 8 && isalpha (slice 0 3 raw_combined)
  && isdigit (slice_from 3 raw_combined).

(** [if self.validate_plate_format(v): return v] *)
Definition return_if_valid (v : str) : result (option str) :=
  ok ← validate_plate_format v; return_if ok v.

Definition priority_pairs (cleaned : list str) : result (option str) :=
  for_in (range (len cleaned)) (fun i =>
    for_in (range2 (Z.of_nat i + 1) (len cleaned)) (fun j =>
      a ← getitem cleaned i;
      b ← getitem cleaned j;
      let raw_combined := a ++ b in
      return_if (priority_rule raw_combined) raw_combined)).

Definition raw_pairs (cleaned : list str) : result (option str) :=
  for_in (range (len cleaned)) (fun i =>
    for_in (range2 (Z.of_nat i + 1) (len cleaned)) (fun j =>
      a ← getitem cleaned i;
      b ← getitem cleaned j;
      let raw_combined := a ++ b in
      return_if_valid raw_combined)).

Definition permuted_pairs (cleaned : list str) : result (option str) :=
  for_in (permutations2 cleaned) (fun ab =>
    let combined := ab.1 ++ ab.2 in
    return_if_valid combined).

Definition permuted_pairs_ambiguous (cleaned : list str) : result (option str) :=
  for_in (permutations2 cleaned) (fun ab =>
    let combined := ab.1 ++ ab.2 in
    for_in (generate_ambiguity_variants combined) return_if_valid).

Definition individual (cleaned : list str) : result (option str) :=
  for_in cleaned return_if_valid.

Definition individual_ambiguous (cleaned : list str) : result (option str) :=
  for_in cleaned (fun t =>
    for_in (generate_ambiguity_variants t) return_if_valid).

Definition fallback_texts (group : list fragment) : list str :=
  let all_texts := map (fun f => clean_text f.1.2) group in
  filter (fun t => ~ Is_true (should_ignore t)) all_texts.

Definition fallback (group : list fragment) : result (option str) :=
  let combined := concat (fallback_texts group) in
  for_in [6; 7; 8] (fun length_ =>
    for_in (range (len combined - Z.of_nat length_ + 1)) (fun j =>
      let candidate := slice j (j + length_) combined in
      return_if_valid candidate ;;;
      for_in (generate_ambiguity_variants candidate) return_if_valid)).

Definition extract_candidate_from_group (group : list fragment)
  : result (option str) :=
  let cleaned_texts := cleaned_texts group in
  priority_pairs cleaned_texts ;;;
  raw_pairs cleaned_texts ;;;
  permuted_pairs cleaned_texts ;;;
  permuted_pairs_ambiguous cleaned_texts ;;;
  individual cleaned_texts ;;;
  individual_ambiguous cleaned_texts ;;;
  fallback group ;;;
  Ok None.

(** ** Recognizer *)

(** What [os.path.exists], [cv2.imread] and [reader.readtext] find. *)
Inductive image_file :=
| NoSuchFile
| Unreadable
| Readable (results : list fragment).

Definition not_found : str :=
  py "No se detect" ++ [243%N] ++ py " patente v" ++ [225%N] ++ py "lida.".

(** [if candidate:] holds for a string that is not empty. *)
Definition truthy (candidate : option str) : bool :=
  match candidate with
  | Some (_ :: _) => true
  | _ => false
  end.

Definition missing_message (image_path : str) : str :=
  py "Error: La imagen " ++ image_path ++ py " no existe.".
Definition unreadable_message (image_path : str) : str :=
  py "Error: No se pudo abrir la imagen " ++ image_path ++ py ".".

Definition recognize_plate (image_path : str) (file : image_file) : result str :=
  match file with
  | NoSuchFile => Ok (missing_message image_path)
  | Unreadable => Ok (unreadable_message image_path)
  | Readable results =>
      groups ← group_close_texts results;
      candidate ← extract_candidate_from_group (concat groups);
      match candidate with
      | Some c => if truthy candidate then Ok c else Ok not_found
      | None => Ok not_found
      end
  end.

(** ** Definitions used to state the properties *)

(** The first [Some] that [g] gives along [xs]. *)
Fixpoint first_some {A B} (g : A -> option B) (xs : list A) : option B :=
  match xs with
  | [] => None
  | x :: xs' =>
      match g x with
      | Some v => Some v
      | None => first_some g xs'
      end
  end.

Definition or_else {B} (o1 o2 : option B) : option B :=
  match o1 with
  | Some v => Some v
  | None => o2
  end.

(** The result of the validator, which never raises (see
    [validate_plate_format_Ok]). *)
Definition valid (text : str) : bool :=
  match validate_plate_format text with
  | Ok b => b
  | Raise _ => false
  end.

(** Every character is a letter, respectively a digit. *)
Definition alphabetic (s : str) : Prop :=
  Forall (fun c => char_isalpha c = true) s.
Definition digits (s : str) : Prop :=
  Forall (fun c => char_isdigit c = true) s.

(** [d] is one of the variants of [c]: a member of its entry in the map,
    or [c] itself when it has none. *)
Definition is_variant (c d : char) : Prop :=
  match ambiguous_map !! c with
  | Some variants => d ∈ variants
  | None => d = c
  end.

Definition variant_count (c : char) : nat :=
  match ambiguous_map !! c with
  | Some variants => length variants
  | None => 1
  end.

(** The grammars in the words of the specification: [take n s] is the
    first [n] characters, [drop n s] what follows them. *)
Definition plate_grammar (s : str) : Prop :=
  (length s = 6 /\ alphabetic (take 3 s) /\ digits (drop 3 s)) \/
  (length s = 7 /\
    ((alphabetic (take 2 s) /\ digits (take 3 (drop 2 s))
        /\ alphabetic (drop 5 s)) \/
     (alphabetic (take 1 s) /\ digits (take 3 (drop 1 s))
        /\ alphabetic (drop 4 s)))) \/
  (length s = 8 /\ alphabetic (take 1 s) /\ digits (take 3 (drop 1 s))
     /\ alphabetic (drop 4 s)).

(** The test of the priority rule, and the shape of what the search can
    return. *)
Definition three_letters_five_digits (s : str) : Prop :=
  length s = 8 /\ alphabetic (take 3 s) /\ digits (drop 3 s).

Definition candidate_shape (s : str) : Prop :=
  6 <= length s <= 8 /\
  (plate_grammar s \/ (alphabetic (take 3 s) /\ digits (drop 3 s))).



(** The test of the pre-filter in the words of the specification. *)
Definition survives (f : fragment) : Prop :=
  (min_confidence self <= f.2)%Q /\
  (clean_text f.1.2 ∉ ignore_words) /\
  length (clean_text f.1.2) <= 8.

Definition pair_concats (cleaned : list str) : list str :=
  map (fun ab => ab.1 ++ ab.2) (ordered_pairs cleaned).

Definition permuted_concats (cleaned : list str) : list str :=
  map (fun ab => ab.1 ++ ab.2) (permutations2 cleaned).

(** What one window position yields: the window itself when it is valid,
    and otherwise its first valid ambiguity variant. *)
Definition window_match (w : str) : option str :=
  if valid w then Some w else find valid (generate_ambiguity_variants w).

Definition sliding_windows (combined : str) : list str :=
  windows 6 combined ++ windows 7 combined ++ windows 8 combined.

Definition search (group : list fragment) : option str :=
  let cleaned := cleaned_texts group in
  or_else (find priority_rule (pair_concats cleaned))
  (or_else (find valid (pair_concats cleaned))
  (or_else (find valid (permuted_concats cleaned))
  (or_else (find valid (flat_map generate_ambiguity_variants
                          (permuted_concats cleaned)))
  (or_else (find valid cleaned)
  (or_else (find valid (flat_map generate_ambiguity_variants cleaned))
     (first_some window_match
        (sliding_windows (concat (fallback_texts group))))))))).

(** The key that [group_close_texts] sorts by, the least height among the
    corners of the box; [0] stands for a box without corners, for which
    [min_y] raises. *)
Definition top (f : fragment) : Q :=
  match min_y f.1.1 with
  | Ok k => k
  | Raise _ => 0%Q
  end.

(** The strings that the search takes as they are or corrects: the
    concatenation of the tokens at two different positions, a token, or a
    window of 6, 7 or 8 characters of the joined fallback texts. *)
Definition is_base (group : list fragment) (c : str) : Prop :=
  (exists i j a b,
     i <> j /\ cleaned_texts group !! i = Some a /\
     cleaned_texts group !! j = Some b /\ c = a ++ b) \/
  c ∈ cleaned_texts group \/
  (exists j L,
     (L = 6 \/ L = 7 \/ L = 8) /\
     j + L <= length (concat (fallback_texts group)) /\
     c = take L (drop j (concat (fallback_texts group)))).

(** [f] is not below [g]. *)
Definition not_below (f g : fragment) : Prop := (top f <= top g)%Q.

(** * Properties *)

(** ** The error monad and the loops *)

Lemma and_then_Ok {B} (o1 o2 : option B) :
  (Ok o1 ;;; Ok o2) = Ok (or_else o1 o2).
Proof. by destruct o1. Qed.

Lemma and_then_None {B} (s : result (option B)) : (Ok None ;;; s) = s.
Proof. done. Qed.

Lemma for_in_Ok {A B} (xs : list A) (body : A -> result (option B)) g :
  (forall x, x ∈ xs -> body x = Ok (g x)) ->
  for_in xs body = Ok (first_some g xs).
Proof.
  induction xs as [|x xs IH]; intros Hbody; [done|].
  cbn [for_in first_some].
  rewrite (Hbody x) by constructor.
  destruct (g x) as [v|]; [done|].
  rewrite and_then_None. apply IH. intros y Hy. apply Hbody. by constructor.
Qed.

Lemma for_in_app {A B} (xs ys : list A) (body : A -> result (option B)) :
  for_in (xs ++ ys) body = (for_in xs body ;;; for_in ys body).
Proof.
  induction xs as [|x xs IH]; cbn [for_in app]; [done|].
  rewrite IH. destruct (body x) as [[v|]|e]; done.
Qed.

Lemma for_in_fall_through {A B} (xs : list A) (body : A -> result (option B)) :
  (forall x, x ∈ xs -> body x = Ok None) -> for_in xs body = Ok None.
Proof.
  intros H. rewrite (for_in_Ok xs body (fun _ => None)) by done.
  f_equal. clear H. induction xs as [|x xs IH]; [done|apply IH].
Qed.

Lemma for_in_first {A B} (pre post : list A) x v
    (body : A -> result (option B)) :
  (forall y, y ∈ pre -> body y = Ok None) ->
  body x = Ok (Some v) ->
  for_in (pre ++ x :: post) body = Ok (Some v).
Proof.
  intros Hpre Hx. rewrite for_in_app, (for_in_fall_through pre) by done.
  rewrite and_then_None. cbn [for_in]. by rewrite Hx.
Qed.

Lemma first_some_app {A B} (g : A -> option B) xs ys :
  first_some g (xs ++ ys) = or_else (first_some g xs) (first_some g ys).
Proof.
  induction xs as [|x xs IH]; cbn [first_some app or_else]; [done|].
  destruct (g x); [done|apply IH].
Qed.

Lemma first_some_flat_map {A B C} (g : B -> option C) (f : A -> list B) xs :
  first_some g (flat_map f xs) = first_some (fun x => first_some g (f x)) xs.
Proof.
  induction xs as [|x xs IH]; cbn [first_some flat_map]; [done|].
  rewrite first_some_app, IH. by destruct (first_some g (f x)).
Qed.

Lemma first_some_map {A B C} (g : B -> option C) (f : A -> B) xs :
  first_some g (map f xs) = first_some (fun x => g (f x)) xs.
Proof.
  induction xs as [|x xs IH]; cbn [first_some map]; [done|].
  by rewrite IH.
Qed.

Lemma first_some_ext {A B} (g h : A -> option B) xs :
  (forall x, x ∈ xs -> g x = h x) -> first_some g xs = first_some h xs.
Proof.
  induction xs as [|x xs IH]; intros H; cbn [first_some]; [done|].
  rewrite (H x) by constructor. rewrite IH; [done|].
  intros y Hy. apply H. by constructor.
Qed.

Lemma first_some_find {A} (p : A -> bool) xs :
  first_some (fun x => if p x then Some x else None) xs = find p xs.
Proof.
  induction xs as [|x xs IH]; cbn [first_some find]; [done|].
  by destruct (p x).
Qed.

Lemma first_some_Some {A B} (g : A -> option B) xs v :
  first_some g xs = Some v ->
  exists pre x post,
    xs = pre ++ x :: post /\ g x = Some v /\ Forall (fun y => g y = None) pre.
Proof.
  induction xs as [|x xs IH]; cbn [first_some]; [done|].
  destruct (g x) as [w|] eqn:Hgx.
  - intros [= ->]. by exists [], x, xs.
  - intros (pre & y & post & -> & Hy & Hpre)%IH.
    exists (x :: pre), y, post. split_and!; [done|done|by constructor].
Qed.

(** ** The validator never raises *)

Lemma validate_plate_format_Ok (text : str) :
  validate_plate_format text = Ok (valid text).
Proof.
  unfold valid, validate_plate_format.
  destruct text as [|c0 text]; [done|].
  cbn [getitem lookup list_lookup mbind result_bind].
  repeat case_match; done.
Qed.

Lemma return_if_valid_Ok (v : str) :
  return_if_valid v = Ok (if valid v then Some v else None).
Proof. unfold return_if_valid. by rewrite validate_plate_format_Ok. Qed.

Lemma for_in_return_if_valid (xs : list str) :
  for_in xs return_if_valid = Ok (find valid xs).
Proof.
  rewrite <- first_some_find. apply for_in_Ok.
  intros x _. apply return_if_valid_Ok.
Qed.

(** ** The plate grammars *)

Lemma forallb_eq_true {A} (f : A -> bool) (l : list A) :
  forallb f l = true <-> Forall (fun x => f x = true) l.
Proof.
  induction l as [|x l IH]; cbn [forallb]; [by split|].
  rewrite andb_true_iff, Forall_cons, IH. done.
Qed.

Lemma isalpha_nonempty (s : str) :
  length s <> 0 -> isalpha s = true <-> alphabetic s.
Proof.
  intros Hlen. unfold isalpha, alphabetic.
  destruct (Nat.eqb_spec (length s) 0) as [|_]; [done|].
  cbn [negb andb]. apply forallb_eq_true.
Qed.

Lemma isdigit_nonempty (s : str) :
  length s <> 0 -> isdigit s = true <-> digits s.
Proof.
  intros Hlen. unfold isdigit, digits.
  destruct (Nat.eqb_spec (length s) 0) as [|_]; [done|].
  cbn [negb andb]. apply forallb_eq_true.
Qed.

Lemma valid_length (s : str) :
  valid s = true -> length s = 6 \/ length s = 7 \/ length s = 8.
Proof.
  unfold valid, validate_plate_format.
  destruct (Nat.eqb_spec (length s) 6); [by left|].
  destruct (Nat.eqb_spec (length s) 7); [by right; left|].
  destruct (Nat.eqb_spec (length s) 8); [by right; right|done].
Qed.

Local Ltac len_solve :=
  rewrite ?length_take, ?length_drop; cbn [length] in *; lia.

Lemma getitem_0 {A} (l : list A) :
  length l <> 0 -> exists x, getitem l 0 = Ok x /\ take 1 l = [x].
Proof. destruct l as [|x l]; [done|]. intros _. by exists x. Qed.

Lemma valid_grammar (s : str) : valid s = true <-> plate_grammar s.
Proof.
  unfold valid, validate_plate_format, plate_grammar, slice, slice_from.
  cbn [Nat.sub]. rewrite !drop_0.
  destruct (Nat.eqb_spec (length s) 6) as [H6|H6].
  { rewrite andb_true_iff, isalpha_nonempty, isdigit_nonempty by len_solve.
    split; [by left|].
    intros [(_ & ?)|[(? & _)|(? & _)]]; [done|lia..]. }
  destruct (Nat.eqb_spec (length s) 7) as [H7|H7].
  { destruct (getitem_0 s) as (c0 & Hget & Htake); [lia|].
    rewrite Hget. cbn [mbind result_bind]. rewrite <- Htake.
    destruct (isalpha (take 2 s) && isdigit (take 3 (drop 2 s))
              && isalpha (drop 5 s)) eqn:Hstd.
    - split; [intros _|done]. right; left. split; [done|]. left.
      rewrite !andb_true_iff in Hstd. destruct Hstd as [[Ha Hd] Hb].
      rewrite isalpha_nonempty in Ha, Hb by len_solve.
      rewrite isdigit_nonempty in Hd by len_solve.
      done.
    - destruct (isalpha (take 1 s) && isdigit (take 3 (drop 1 s))
                && isalpha (drop 4 s)) eqn:Hmoto.
      + split; [intros _|done]. right; left. split; [done|]. right.
        rewrite !andb_true_iff in Hmoto. destruct Hmoto as [[Ha Hd] Hb].
        rewrite isalpha_nonempty in Ha, Hb by len_solve.
        rewrite isdigit_nonempty in Hd by len_solve.
        done.
      + split; [done|].
        intros [(? & _)|[(_ & [(Ha & Hd & Hb)|(Ha & Hd & Hb)])|(? & _)]];
          [lia| | |lia].
        * rewrite <- isalpha_nonempty in Ha, Hb by len_solve.
          rewrite <- isdigit_nonempty in Hd by len_solve.
          by rewrite Ha, Hb, Hd in Hstd.
        * rewrite <- isalpha_nonempty in Ha, Hb by len_solve.
          rewrite <- isdigit_nonempty in Hd by len_solve.
          by rewrite Ha, Hb, Hd in Hmoto. }
  destruct (Nat.eqb_spec (length s) 8) as [H8|H8].
  { destruct (getitem_0 s) as (c0 & Hget & Htake); [lia|].
    rewrite Hget. cbn [mbind result_bind]. rewrite <- Htake.
    rewrite !andb_true_iff, !isalpha_nonempty, isdigit_nonempty by len_solve.
    split; [intros [[? ?] ?]; by right; right|].
    intros [(? & _)|[(? & _)|(_ & ? & ? & ?)]]; [lia..|done]. }
  split; [done|]. intros [(? & _)|[(? & _)|(? & _)]]; lia.
Qed.

(** ** The loops over positions *)

Lemma range_len {A} (l : list A) : range (len l) = seq 0 (length l).
Proof. unfold range, len. by rewrite Nat2Z.id. Qed.

Lemma range2_len {A} (l : list A) (i : nat) :
  range2 (Z.of_nat i + 1) (len l) = seq (S i) (length l - S i).
Proof. unfold range2, len. f_equal; lia. Qed.

Lemma first_some_seq_lookup {A B} (l : list A) (h : A -> option B) :
  first_some (fun j => match l !! j with Some b => h b | None => None end)
    (seq 0 (length l)) = first_some h l.
Proof.
  induction l as [|a l IH]; [done|].
  cbn [length seq first_some lookup list_lookup].
  rewrite <- seq_shift, first_some_map.
  destruct (h a); [done|]. apply IH.
Qed.

Lemma first_some_head_row {B} (a : str) (l : list str) (g : str -> option B) :
  first_some (fun j =>
    match (a :: l) !! 0, (a :: l) !! j with
    | Some a, Some b => g (a ++ b)
    | _, _ => None
    end) (seq 1 (length l))
  = first_some (fun b => g (a ++ b)) l.
Proof.
  rewrite <- seq_shift, first_some_map.
  rewrite <- (first_some_seq_lookup l (fun b => g (a ++ b))).
  apply first_some_ext. by intros j _.
Qed.

(** The two nested [range] loops visit the pairs of [ordered_pairs]. *)
Lemma first_some_positions {B} (cleaned : list str) (g : str -> option B) :
  first_some (fun i =>
    first_some (fun j =>
      match cleaned !! i, cleaned !! j with
      | Some a, Some b => g (a ++ b)
      | _, _ => None
      end) (seq (S i) (length cleaned - S i))) (seq 0 (length cleaned))
  = first_some g (map (fun ab => ab.1 ++ ab.2) (ordered_pairs cleaned)).
Proof.
  induction cleaned as [|a l IH]; [done|].
  cbn [length seq first_some ordered_pairs].
  rewrite map_app, first_some_app, map_map, Nat.sub_succ, Nat.sub_0_r.
  rewrite first_some_head_row. unfold or_else. cbn [fst snd].
  rewrite (first_some_map g (fun x => a ++ x)).
  destruct (first_some _ l); [done|].
  rewrite <- IH, <- seq_shift, first_some_map.
  apply first_some_ext. intros i _.
  rewrite Nat.sub_succ, <- (seq_shift _ (S i)), first_some_map.
  apply first_some_ext. by intros j _.
Qed.

Lemma pairs_loop_Ok (cleaned : list str) (k : str -> result (option str)) g :
  (forall v, k v = Ok (g v)) ->
  for_in (range (len cleaned)) (fun i =>
    for_in (range2 (Z.of_nat i + 1) (len cleaned)) (fun j =>
      a ← getitem cleaned i;
      b ← getitem cleaned j;
      let raw_combined := a ++ b in
      k raw_combined))
  = Ok (first_some g (map (fun ab => ab.1 ++ ab.2) (ordered_pairs cleaned))).
Proof.
  intros Hk. rewrite range_len, <- first_some_positions.
  apply for_in_Ok. intros i Hi. rewrite range2_len.
  apply for_in_Ok. intros j Hj.
  apply elem_of_seq in Hi, Hj.
  destruct (lookup_lt_is_Some_2 cleaned i) as [a Ha]; [lia|].
  destruct (lookup_lt_is_Some_2 cleaned j) as [b Hb]; [lia|].
  unfold getitem. rewrite Ha, Hb. apply Hk.
Qed.

Lemma windows_range {A} (L : nat) (s : list A) :
  0 < L ->
  map (fun j => take (j + L - j) (drop j s)) (range (len s - Z.of_nat L + 1))
  = windows L s.
Proof.
  intros HL. unfold range, len. induction s as [|c s IH].
  { cbn [length windows]. by replace (Z.to_nat _) with 0 by lia. }
  cbn [windows]. destruct (Nat.leb_spec L (length (c :: s))) as [Hle|Hlt].
  - cbn [length] in *.
    replace (Z.to_nat _) with (S (Z.to_nat (Z.of_nat (length s) - Z.of_nat L + 1)))
      by lia.
    cbn [seq map]. rewrite drop_0, Nat.add_0_l, Nat.sub_0_r. f_equal.
    rewrite <- seq_shift, map_map, <- IH. apply map_ext. intros j.
    by replace (S j + L - S j) with (j + L - j) by lia.
  - cbn [length] in *. by replace (Z.to_nat _) with 0 by lia.
Qed.

Lemma windows_positions {A} (L : nat) (s : list A) :
  0 < L ->
  windows L s = map (fun j => take L (drop j s)) (seq 0 (length s + 1 - L)).
Proof.
  intros HL. rewrite <- (windows_range L s HL). unfold range, len.
  replace (Z.to_nat _) with (length s + 1 - L) by lia.
  apply map_ext. intros j. f_equal. lia.
Qed.

(** ** The search as a first match over candidate lists *)

Lemma find_flat_map {A B} (p : B -> bool) (f : A -> list B) xs :
  find p (flat_map f xs) = first_some (fun x => find p (f x)) xs.
Proof.
  rewrite <- first_some_find, first_some_flat_map.
  apply first_some_ext. intros x _. apply first_some_find.
Qed.

Lemma priority_pairs_Ok (cleaned : list str) :
  priority_pairs cleaned = Ok (find priority_rule (pair_concats cleaned)).
Proof.
  unfold priority_pairs, pair_concats. rewrite <- first_some_find.
  by apply (pairs_loop_Ok cleaned (fun v => return_if (priority_rule v) v)).
Qed.

Lemma raw_pairs_Ok (cleaned : list str) :
  raw_pairs cleaned = Ok (find valid (pair_concats cleaned)).
Proof.
  unfold raw_pairs, pair_concats. rewrite <- first_some_find.
  apply (pairs_loop_Ok cleaned return_if_valid), return_if_valid_Ok.
Qed.

Lemma permuted_pairs_Ok (cleaned : list str) :
  permuted_pairs cleaned = Ok (find valid (permuted_concats cleaned)).
Proof.
  unfold permuted_pairs, permuted_concats.
  rewrite <- first_some_find, first_some_map.
  apply for_in_Ok. intros ab _. apply return_if_valid_Ok.
Qed.

Lemma permuted_pairs_ambiguous_Ok (cleaned : list str) :
  permuted_pairs_ambiguous cleaned
  = Ok (find valid (flat_map generate_ambiguity_variants (permuted_concats cleaned))).
Proof.
  unfold permuted_pairs_ambiguous, permuted_concats.
  rewrite find_flat_map, first_some_map.
  apply for_in_Ok. intros ab _. apply for_in_return_if_valid.
Qed.

Lemma individual_Ok (cleaned : list str) :
  individual cleaned = Ok (find valid cleaned).
Proof. apply for_in_return_if_valid. Qed.

Lemma individual_ambiguous_Ok (cleaned : list str) :
  individual_ambiguous cleaned
  = Ok (find valid (flat_map generate_ambiguity_variants cleaned)).
Proof.
  unfold individual_ambiguous. rewrite find_flat_map.
  apply for_in_Ok. intros t _. apply for_in_return_if_valid.
Qed.

Lemma fallback_Ok (group : list fragment) :
  fallback group
  = Ok (first_some window_match (sliding_windows (concat (fallback_texts group)))).
Proof.
  unfold fallback, sliding_windows.
  set (combined := concat (fallback_texts group)).
  rewrite !first_some_app.
  rewrite <- !(windows_range _ combined) by lia.
  rewrite !first_some_map.
  set (at_position L := fun j : nat =>
         window_match (take (j + L - j) (drop j combined))).
  transitivity (Ok (first_some (fun L =>
      first_some (at_position L)
        (range (len combined - Z.of_nat L + 1))) [6; 7; 8])).
  - apply for_in_Ok. intros L _. apply for_in_Ok. intros j _.
    unfold at_position, window_match, slice.
    rewrite return_if_valid_Ok, for_in_return_if_valid.
    by destruct (valid _).
  - cbn [first_some]. subst at_position. unfold or_else.
    do 2 (destruct (first_some _ _); [done|]). by destruct (first_some _ _).
Qed.

Lemma extract_candidate_from_group_Ok (group : list fragment) :
  extract_candidate_from_group group = Ok (search group).
Proof.
  unfold extract_candidate_from_group, search.
  rewrite priority_pairs_Ok, raw_pairs_Ok, permuted_pairs_Ok,
    permuted_pairs_ambiguous_Ok, individual_Ok, individual_ambiguous_Ok,
    fallback_Ok.
  rewrite !and_then_Ok. do 6 f_equal. by destruct (first_some _ _).
Qed.

(** ** Format validator *)

(** C3. [validate_plate_format] is total, accepts exactly the four plate
    grammars (3 letters + 3 digits; 2 letters + 3 digits + 2 letters;
    1 letter + 3 digits + 3 letters; 1 letter + 3 digits + 4 letters) and
    rejects every string whose length is not 6, 7 or 8. *)
Theorem validate_plate_format_grammar (s : str) :
  (exists b, validate_plate_format s = Ok b) /\
  (validate_plate_format s = Ok true <-> plate_grammar s) /\
  (length s <> 6 -> length s <> 7 -> length s <> 8 ->
   validate_plate_format s = Ok false).
Proof.
  rewrite validate_plate_format_Ok. split_and!.
  - by eexists.
  - rewrite <- valid_grammar. split; [by intros [= ->]|by intros ->].
  - intros H6 H7 H8. destruct (valid s) eqn:Hv; [|done].
    apply valid_length in Hv. lia.
Qed.

(** ** Ambiguity map and expander *)

Lemma ambiguous_table_symmetric :
  Forall (fun p => p.1 ∈ p.2 /\
    Forall (fun q => q.1 ∈ p.2 <-> p.1 ∈ q.2) ambiguous_table)
    ambiguous_table.
Proof. apply (bool_decide_eq_true_1 _). vm_compute. reflexivity. Qed.

Lemma ambiguous_map_lookup (x : char) (vs : list char) :
  ambiguous_map !! x = Some vs -> (x, vs) ∈ ambiguous_table.
Proof. apply elem_of_list_to_map_2. Qed.

Lemma ambiguous_map_self (x : char) (vs : list char) :
  ambiguous_map !! x = Some vs -> x ∈ vs.
Proof.
  intros Hx%ambiguous_map_lookup.
  pose proof ambiguous_table_symmetric as Htable.
  rewrite Forall_forall in Htable. by apply (Htable (x, vs)).
Qed.

(** C9. The ambiguity map is reflexive (every key is among its own
    variants) and symmetric on its keys. *)
Theorem ambiguous_map_reflexive_symmetric :
  (forall (x : char) vs, ambiguous_map !! x = Some vs -> x ∈ vs) /\
  (forall (x y : char) vx vy,
     ambiguous_map !! x = Some vx -> ambiguous_map !! y = Some vy ->
     (y ∈ vx <-> x ∈ vy)).
Proof.
  split; [apply ambiguous_map_self|].
  intros x y vx vy Hx%ambiguous_map_lookup Hy%ambiguous_map_lookup.
  pose proof ambiguous_table_symmetric as Htable.
  rewrite Forall_forall in Htable.
  destruct (Htable (x, vx) Hx) as [_ Hsym].
  rewrite Forall_forall in Hsym. by apply (Hsym (y, vy)).
Qed.

Lemma elem_of_product {A} (pools : list (list A)) (v : list A) :
  v ∈ product pools <-> Forall2 (fun pool x => x ∈ pool) pools v.
Proof.
  revert v. induction pools as [|pool pools IH]; intros v; cbn [product].
  - rewrite list_elem_of_singleton.
    split; [by intros ->|apply Forall2_nil_inv_l].
  - rewrite list_elem_of_In, in_flat_map. split.
    + intros (x & Hx%list_elem_of_In & Hv%list_elem_of_In).
      apply list_elem_of_fmap in Hv as (w & -> & Hw%IH). by constructor.
    + inversion 1 as [|? x ? w Hx Hw]; subst. exists x.
      rewrite <- !list_elem_of_In. split; [done|].
      apply list_elem_of_fmap. exists w. by rewrite IH.
Qed.

Lemma length_product {A} (pools : list (list A)) :
  length (product pools)
  = foldr (fun pool n => length pool * n) 1 pools.
Proof.
  induction pools as [|pool pools IH]; cbn [product foldr]; [done|].
  rewrite <- IH. generalize (product pools) as rest. intros rest.
  induction pool as [|x pool IHp]; cbn [flat_map length]; [done|].
  rewrite length_app, length_map, IHp. lia.
Qed.

Lemma flat_map_bind {A B} (f : A -> list B) (l : list A) :
  flat_map f l = l ≫= f.
Proof. induction l as [|x l IH]; [done|]. cbn. by rewrite IH. Qed.

Lemma NoDup_product {A} (pools : list (list A)) :
  Forall NoDup pools -> NoDup (product pools).
Proof.
  induction 1 as [|pool pools Hpool _ IH]; cbn [product].
  { apply NoDup_singleton. }
  rewrite flat_map_bind. apply NoDup_bind; [| |done].
  - intros x1 x2 v _ _ (w1 & -> & _)%list_elem_of_fmap
      (w2 & [= -> _] & _)%list_elem_of_fmap. done.
  - intros x _. apply (NoDup_fmap_2 _). exact IH.
Qed.

Lemma ambiguous_table_NoDup :
  Forall (fun p => NoDup p.2) ambiguous_table.
Proof. apply (bool_decide_eq_true_1 _). vm_compute. reflexivity. Qed.

Lemma options_for_NoDup (c : char) : NoDup (options_for c).
Proof.
  unfold options_for. destruct (ambiguous_map !! c) as [vs|] eqn:Hc.
  - apply ambiguous_map_lookup in Hc.
    pose proof ambiguous_table_NoDup as Htable.
    rewrite Forall_forall in Htable. by apply (Htable (c, vs)).
  - apply NoDup_singleton.
Qed.

Lemma elem_of_options_for (c d : char) : d ∈ options_for c <-> is_variant c d.
Proof.
  unfold options_for, is_variant. destruct (ambiguous_map !! c); [done|].
  apply list_elem_of_singleton.
Qed.

Lemma length_options_for (c : char) : length (options_for c) = variant_count c.
Proof. unfold options_for, variant_count. by destruct (ambiguous_map !! c). Qed.

Lemma is_variant_self (c : char) : is_variant c c.
Proof.
  unfold is_variant. destruct (ambiguous_map !! c) as [vs|] eqn:Hc; [|done].
  by apply ambiguous_map_self.
Qed.

(** C4. [generate_ambiguity_variants s] yields exactly the strings that
    replace each character of [s] by one of its variants (a member of its
    entry in the map, the character itself being one; only itself when it
    has no entry), [s] among them; it yields each once, as many strings as
    the product of the sizes of the variant sets, each as long as [s], in
    the order of the Cartesian product with the first position varying
    slowest. *)
Theorem generate_ambiguity_variants_product (s : str) :
  (forall v, v ∈ generate_ambiguity_variants s <-> Forall2 is_variant s v) /\
  length (generate_ambiguity_variants s)
    = foldr (fun c n => variant_count c * n) 1 s /\
  NoDup (generate_ambiguity_variants s) /\
  Forall (fun v => length v = length s) (generate_ambiguity_variants s) /\
  Forall2 is_variant s s /\
  (forall c, generate_ambiguity_variants (c :: s)
             = flat_map (fun d => map (cons d) (generate_ambiguity_variants s))
                 (options_for c)).
Proof.
  assert (forall v, v ∈ generate_ambiguity_variants s
                    <-> Forall2 is_variant s v) as Hin.
  { intros v. unfold generate_ambiguity_variants.
    rewrite elem_of_product, Forall2_fmap_l.
    split; intros H; (eapply Forall2_impl; [exact H|]); intros c d;
      apply elem_of_options_for. }
  split_and!; [done| | | | |done].
  - unfold generate_ambiguity_variants. rewrite length_product. clear Hin.
    induction s as [|c s IH]; cbn [map foldr]; [done|].
    by rewrite IH, length_options_for.
  - apply NoDup_product, Forall_fmap, Forall_forall.
    intros c _. apply options_for_NoDup.
  - apply Forall_forall. intros v Hv%Hin. symmetry.
    by eapply Forall2_length.
  - clear Hin. induction s as [|c s IH]; constructor; [|done].
    apply is_variant_self.
Qed.

(** ** Normalizer *)

Local Ltac bool_to_Prop H :=
  unfold char_isspace, keeps, is_upper_AZ, is_lower_az, is_digit_09,
    is_ascii, in_range in H;
  rewrite ?orb_true_iff, ?orb_false_iff, ?andb_true_iff, ?andb_false_iff,
    ?N.leb_le, ?N.leb_gt, ?N.eqb_eq, ?N.eqb_neq, ?N.ltb_lt, ?N.ltb_ge in H.

Lemma keeps_range (c : char) :
  keeps c = true ->
  (chr "A" <= c <= chr "Z")%N \/ (chr "0" <= c <= chr "9")%N.
Proof. intros H. bool_to_Prop H. change (chr "A") with 65%N.
  change (chr "Z") with 90%N. change (chr "0") with 48%N.
  change (chr "9") with 57%N. lia.
Qed.













(** ** Pre-filter *)

Lemma should_ignore_false (txt : str) :
  should_ignore txt = false <-> (txt ∉ ignore_words) /\ length txt <= 8.
Proof.
  unfold should_ignore.
  rewrite orb_false_iff, bool_decide_eq_false, Nat.ltb_ge. done.
Qed.

Lemma kept_survives (f : fragment) :
  Qle_bool (min_confidence self) f.2 && negb (should_ignore (clean_text f.1.2))
  = true <-> survives f.
Proof.
  unfold survives.
  rewrite andb_true_iff, negb_true_iff, Qle_bool_iff, should_ignore_false.
  done.
Qed.

(** C6. The tokens that tiers 1 to 6 search are the normalized texts of
    the fragments whose confidence is at least the minimum (a fragment
    exactly at the minimum is kept), whose normalized text is not an ignored
    word and has at most 8 characters; they keep their input order. *)
Theorem cleaned_texts_survivors (group : list fragment) :
  cleaned_texts group
  = map (fun f => clean_text f.1.2) (filter survives group) /\
  (forall bbox t,
     (clean_text t ∉ ignore_words) -> length (clean_text t) <= 8 ->
     cleaned_texts [(bbox, t, min_confidence self)] = [clean_text t]).
Proof.
  assert (forall g, cleaned_texts g
            = map (fun f => clean_text f.1.2) (filter survives g)) as Hfilter.
  { intros g. unfold cleaned_texts, original_texts.
    induction g as [|[[bbox t] p] g IH]; [done|].
    cbn [flat_map]. rewrite filter_cons, map_app, IH.
    pose proof (kept_survives (bbox, t, p)) as Hkept. cbn [fst snd] in Hkept.
    destruct (decide (survives (bbox, t, p))) as [Hs|Hs].
    - apply Hkept in Hs. by rewrite Hs.
    - destruct (Qle_bool _ _ && _); [|done]. destruct Hs. by apply Hkept. }
  split; [done|]. intros bbox t Hign Hlen. rewrite Hfilter, filter_cons.
  destruct (decide _) as [_|Hs]; [done|]. destruct Hs. split; [|done].
  apply Qle_refl.
Qed.

(** ** Priority rule *)

Lemma priority_rule_spec (s : str) :
  priority_rule s = true <-> three_letters_five_digits s.
Proof.
  unfold priority_rule, three_letters_five_digits, slice, slice_from.
  cbn [Nat.sub]. rewrite drop_0.
  destruct (Nat.eqb_spec (length s) 8) as [H8|H8]; cbn [andb].
  - rewrite andb_true_iff, isalpha_nonempty, isdigit_nonempty by len_solve.
    by intuition.
  - split; [done|]. by intros [? _].
Qed.

Lemma seq_split_at (start n k : nat) :
  start <= k < start + n ->
  seq start n = seq start (k - start) ++ k :: seq (S k) (start + n - S k).
Proof.
  intros Hk.
  replace n with ((k - start) + S (start + n - S k)) at 1 by lia.
  rewrite seq_app. cbn [seq].
  by replace (start + (k - start)) with k by lia.
Qed.

Lemma priority_body_Ok (cleaned : list str) (i j : nat) (a b : str) :
  cleaned !! i = Some a -> cleaned !! j = Some b ->
  (a ← getitem cleaned i;
   b ← getitem cleaned j;
   let raw_combined := a ++ b in
   return_if (priority_rule raw_combined) raw_combined)
  = Ok (if priority_rule (a ++ b) then Some (a ++ b) else None).
Proof. intros Ha Hb. unfold getitem. by rewrite Ha, Hb. Qed.

(** C2. The first pair of surviving tokens, in the order of the positions
    [(i, j)] with [i < j], whose concatenation has 8 characters, 3 letters
    then 5 digits, decides the search: that concatenation is returned as it
    is, whatever the later tiers would find. *)
Theorem priority_rule_first_pair (group : list fragment) (i j : nat)
    (a b : str) :
  cleaned_texts group !! i = Some a ->
  cleaned_texts group !! j = Some b ->
  i < j ->
  three_letters_five_digits (a ++ b) ->
  (forall i' j' a' b',
     i' < j' -> i' < i \/ (i' = i /\ j' < j) ->
     cleaned_texts group !! i' = Some a' ->
     cleaned_texts group !! j' = Some b' ->
     ~ three_letters_five_digits (a' ++ b')) ->
  priority_pairs (cleaned_texts group) = Ok (Some (a ++ b)) /\
  extract_candidate_from_group group = Ok (Some (a ++ b)).
Proof.
  intros Ha Hb Hij Hrule Hearlier.
  set (cleaned := cleaned_texts group) in *.
  pose proof (lookup_lt_Some _ _ _ Ha) as Hi.
  pose proof (lookup_lt_Some _ _ _ Hb) as Hj.
  assert (forall i' j', i' < j' < length cleaned ->
            i' < i \/ (i' = i /\ j' < j) ->
            (a ← getitem cleaned i'; b ← getitem cleaned j';
             let raw_combined := a ++ b in
             return_if (priority_rule raw_combined) raw_combined)
            = Ok None) as Hnone.
  { intros i' j' Hlt Hbefore.
    destruct (lookup_lt_is_Some_2 cleaned i') as [a' Ha']; [lia|].
    destruct (lookup_lt_is_Some_2 cleaned j') as [b' Hb']; [lia|].
    rewrite (priority_body_Ok cleaned i' j' a' b') by done.
    destruct (priority_rule (a' ++ b')) eqn:Hp; [|done].
    apply priority_rule_spec in Hp.
    destruct (Hearlier i' j' a' b'); [lia|done..]. }
  assert (priority_pairs cleaned = Ok (Some (a ++ b))) as Hprio.
  { unfold priority_pairs. rewrite range_len.
    rewrite (seq_split_at 0 (length cleaned) i) by lia.
    apply for_in_first.
    - intros i' Hi'%elem_of_seq. rewrite range2_len.
      apply for_in_fall_through. intros j' Hj'%elem_of_seq.
      apply Hnone; lia.
    - rewrite range2_len.
      rewrite (seq_split_at (S i) (length cleaned - S i) j) by lia.
      apply for_in_first.
      + intros j' Hj'%elem_of_seq. apply Hnone; lia.
      + etrans; [by apply (priority_body_Ok cleaned i j a b)|].
        apply priority_rule_spec in Hrule. by rewrite Hrule. }
  split; [done|]. unfold extract_candidate_from_group.
  fold cleaned. by rewrite Hprio.
Qed.

(** ** Fallback *)

Lemma fallback_texts_filter (group : list fragment) :
  fallback_texts group
  = filter (fun t => (t ∉ ignore_words) /\ length t <= 8)
      (map (fun f => clean_text f.1.2) group).
Proof.
  unfold fallback_texts. apply list_filter_iff. intros t.
  rewrite <- should_ignore_false. apply Is_true_false.
Qed.

(** C5. The fallback joins, in input order, the normalized texts that are
    not ignored words and have at most 8 characters, whatever their
    confidence; it then takes the windows of length 6 from left to right,
    then those of length 7, then those of length 8, and returns what the
    first window with a match yields: the window itself when it is valid,
    otherwise its first valid ambiguity variant.  When tiers 1 to 6 fall
    through, this is the result of the search. *)
Theorem fallback_sliding_window (group : list fragment) :
  let combined :=
    concat (filter (fun t => (t ∉ ignore_words) /\ length t <= 8)
              (map (fun f => clean_text f.1.2) group)) in
  fallback group
  = Ok (first_some window_match
          (windows 6 combined ++ windows 7 combined ++ windows 8 combined)) /\
  Forall (fun L =>
      windows L combined
      = map (fun j => take L (drop j combined))
          (seq 0 (length combined + 1 - L))) [6; 7; 8] /\
  (forall group' : list fragment,
     map (fun f => f.1.2) group' = map (fun f => f.1.2) group ->
     fallback group' = fallback group) /\
  (priority_pairs (cleaned_texts group) = Ok None ->
   raw_pairs (cleaned_texts group) = Ok None ->
   permuted_pairs (cleaned_texts group) = Ok None ->
   permuted_pairs_ambiguous (cleaned_texts group) = Ok None ->
   individual (cleaned_texts group) = Ok None ->
   individual_ambiguous (cleaned_texts group) = Ok None ->
   extract_candidate_from_group group = fallback group).
Proof.
  intros combined. subst combined. rewrite <- fallback_texts_filter.
  split_and!.
  - apply fallback_Ok.
  - repeat constructor; apply windows_positions; lia.
  - intros group' Htexts. unfold fallback, fallback_texts.
    replace (map (fun f => clean_text f.1.2) group')
      with (map clean_text (map (fun f : fragment => f.1.2) group'))
      by (by rewrite map_map).
    rewrite Htexts. by rewrite map_map.
  - intros H1 H2 H3 H4 H5 H6. unfold extract_candidate_from_group.
    rewrite H1, H2, H3, H4, H5, H6, !and_then_None, fallback_Ok.
    by destruct (first_some _ _).
Qed.

(** ** What the search returns *)

Lemma window_match_valid (w s : str) :
  window_match w = Some s -> valid s = true.
Proof.
  unfold window_match. destruct (valid w) eqn:Hw.
  - by intros [= <-].
  - by intros [_ ?]%find_some.
Qed.

Lemma search_Some (group : list fragment) (s : str) :
  search group = Some s ->
  find priority_rule (pair_concats (cleaned_texts group)) = Some s
  \/ valid s = true.
Proof.
  unfold search, or_else. intros H.
  destruct (find priority_rule _) eqn:E; [by left|]. right.
  repeat match type of H with
  | match find valid ?l with _ => _ end = _ =>
      destruct (find valid l) eqn:?E;
        [injection H as ->; by eapply find_some|]
  end.
  apply first_some_Some in H as (pre & w & post & _ & Hw & _).
  by eapply window_match_valid.
Qed.

Lemma search_shape (group : list fragment) (s : str) :
  search group = Some s -> priority_rule s = true \/ valid s = true.
Proof.
  intros [Hp|Hv]%search_Some; [left|by right].
  by apply find_some in Hp as [_ Hp].
Qed.

Lemma search_length (group : list fragment) (s : str) :
  search group = Some s -> length s = 6 \/ length s = 7 \/ length s = 8.
Proof.
  intros [Hp|Hv]%search_shape; [|by apply valid_length].
  apply priority_rule_spec in Hp as [? _]. by right; right.
Qed.

Lemma recognize_plate_Readable (image_path : str) results groups candidate :
  group_close_texts results = Ok groups ->
  extract_candidate_from_group (concat groups) = Ok candidate ->
  recognize_plate image_path (Readable results)
  = Ok (match candidate with
        | Some c => if truthy candidate then c else not_found
        | None => not_found
        end).
Proof.
  intros Hg Hc. cbn [recognize_plate]. rewrite Hg. cbn [mbind result_bind].
  rewrite Hc. cbn [mbind result_bind].
  destruct candidate as [c|]; [|done]. by destruct (truthy _).
Qed.

(** C8. The search never raises: each tier returns a candidate or falls
    through; when all seven fall through the search returns [None], and
    the recognizer then returns the not-found message. *)
Theorem search_falls_through (group : list fragment) :
  (exists r, extract_candidate_from_group group = Ok r) /\
  (forall cleaned,
     (exists r, priority_pairs cleaned = Ok r) /\
     (exists r, raw_pairs cleaned = Ok r) /\
     (exists r, permuted_pairs cleaned = Ok r) /\
     (exists r, permuted_pairs_ambiguous cleaned = Ok r) /\
     (exists r, individual cleaned = Ok r) /\
     (exists r, individual_ambiguous cleaned = Ok r)) /\
  (exists r, fallback group = Ok r) /\
  (priority_pairs (cleaned_texts group) = Ok None ->
   raw_pairs (cleaned_texts group) = Ok None ->
   permuted_pairs (cleaned_texts group) = Ok None ->
   permuted_pairs_ambiguous (cleaned_texts group) = Ok None ->
   individual (cleaned_texts group) = Ok None ->
   individual_ambiguous (cleaned_texts group) = Ok None ->
   fallback group = Ok None ->
   extract_candidate_from_group group = Ok None) /\
  (forall image_path results groups,
     group_close_texts results = Ok groups ->
     concat groups = group ->
     extract_candidate_from_group group = Ok None ->
     recognize_plate image_path (Readable results) = Ok not_found).
Proof.
  split_and!.
  - rewrite extract_candidate_from_group_Ok. by eexists.
  - intros cleaned.
    rewrite priority_pairs_Ok, raw_pairs_Ok, permuted_pairs_Ok,
      permuted_pairs_ambiguous_Ok, individual_Ok, individual_ambiguous_Ok.
    split_and!; by eexists.
  - rewrite fallback_Ok. by eexists.
  - intros H1 H2 H3 H4 H5 H6 H7. unfold extract_candidate_from_group.
    by rewrite H1, H2, H3, H4, H5, H6, H7.
  - intros image_path results groups Hg <- Hnone.
    by rewrite (recognize_plate_Readable _ _ _ _ Hg Hnone).
Qed.

(** C10. A candidate that the search returns has 6, 7 or 8 characters, so
    it is never the empty string: the recognizer's test [if candidate:]
    holds for it and the candidate is what the recognizer returns. *)
Theorem candidate_is_truthy (group : list fragment) (s : str) :
  extract_candidate_from_group group = Ok (Some s) ->
  (length s = 6 \/ length s = 7 \/ length s = 8) /\
  s <> [] /\
  truthy (Some s) = true /\
  (forall image_path results groups,
     group_close_texts results = Ok groups ->
     concat groups = group ->
     recognize_plate image_path (Readable results) = Ok s).
Proof.
  rewrite extract_candidate_from_group_Ok. intros [= Hs].
  pose proof (search_length _ _ Hs) as Hlen.
  assert (truthy (Some s) = true) as Htruthy.
  { destruct s; [cbn [length] in Hlen; lia|done]. }
  split_and!; [done| |done|].
  - intros ->. cbn [length] in Hlen. lia.
  - intros image_path results groups Hg <-.
    rewrite (recognize_plate_Readable _ _ _ (Some s) Hg).
    + by rewrite Htruthy.
    + by rewrite extract_candidate_from_group_Ok, Hs.
Qed.

Lemma candidate_shape_intro (s : str) :
  priority_rule s = true \/ valid s = true -> candidate_shape s.
Proof.
  intros [Hp|Hv].
  - apply priority_rule_spec in Hp as (Hlen & Ha & Hd).
    split; [lia|by right].
  - split; [apply valid_length in Hv; lia|].
    left. by apply valid_grammar.
Qed.

Lemma length_py_app (prefix suffix : string) (image_path : str) :
  length (py prefix ++ image_path ++ py suffix)
  = length (py prefix) + length image_path + length (py suffix).
Proof. rewrite !length_app. lia. Qed.

(** C1, with the exception of the priority rule.  A candidate that the
    search returns has 6 to 8 characters and either satisfies the format
    validator or is the raw concatenation that the priority rule returned,
    three letters followed by digits only.  The recognizer returns such a
    candidate, the not-found message or one of the two error messages, and
    none of the messages has the shape of a candidate. *)
Theorem recognize_plate_result :
  (forall group s,
     extract_candidate_from_group group = Ok (Some s) ->
     6 <= length s <= 8 /\
     (validate_plate_format s = Ok true \/
      (priority_pairs (cleaned_texts group) = Ok (Some s) /\
       alphabetic (take 3 s) /\ digits (drop 3 s)))) /\
  (forall image_path file s,
     recognize_plate image_path file = Ok s ->
     candidate_shape s \/ s = not_found \/
     s = missing_message image_path \/ s = unreadable_message image_path) /\
  ~ candidate_shape not_found /\
  (forall image_path,
     ~ candidate_shape (missing_message image_path) /\
     ~ candidate_shape (unreadable_message image_path)).
Proof.
  split_and!.
  - intros group s Hs.
    rewrite extract_candidate_from_group_Ok in Hs. injection Hs as Hs.
    split; [apply search_length in Hs; lia|].
    apply search_Some in Hs as [Hp|Hv].
    + right. rewrite priority_pairs_Ok, Hp. split; [done|].
      apply find_some in Hp as [_ Hp].
      by apply priority_rule_spec in Hp as [_ ?].
    + left. by rewrite validate_plate_format_Ok, Hv.
  - intros image_path [| |results] s; cbn [recognize_plate].
    + intros [= <-]. by right; right; left.
    + intros [= <-]. by right; right; right.
    + destruct (group_close_texts results) as [groups|e]; [|done].
      cbn [mbind result_bind]. rewrite extract_candidate_from_group_Ok.
      cbn [mbind result_bind].
      destruct (search (concat groups)) as [c|] eqn:Hc.
      * destruct (truthy (Some c)); intros [= <-]; [left|by right; left].
        by eapply candidate_shape_intro, search_shape.
      * intros [= <-]. by right; left.
  - intros [[_ Hlen] _]. vm_compute in Hlen. lia.
  - intros image_path. unfold missing_message, unreadable_message.
    split; intros [[_ Hlen] _]; rewrite length_py_app in Hlen;
      vm_compute (length (py _)) in Hlen; lia.
Qed.

(** ** Grouping *)

Lemma Qlt_bool_true (a b : Q) : Qlt_bool a b = true <-> (a < b)%Q.
Proof.
  unfold Qlt_bool. rewrite negb_true_iff.
  destruct (Qle_bool b a) eqn:H.
  - apply Qle_bool_iff in H. split; [done|].
    intros Hlt. by apply Qlt_not_le in Hlt.
  - split; [intros _|done]. apply Qnot_le_lt. intros Hle%Qle_bool_iff.
    congruence.
Qed.

Lemma Qlt_bool_false (a b : Q) : Qlt_bool a b = false <-> (b <= a)%Q.
Proof.
  unfold Qlt_bool. rewrite negb_false_iff. apply Qle_bool_iff.
Qed.

Lemma foldl_min_spec (pts : list (Q * Q)) (m : Q) :
  let r := foldl (fun m pt' => if Qlt_bool pt'.2 m then pt'.2 else m) m pts in
  (r <= m)%Q /\ Forall (fun pt' => (r <= pt'.2)%Q) pts /\
  (r = m \/ exists pt', pt' ∈ pts /\ r = pt'.2).
Proof.
  revert m. induction pts as [|pt pts IH]; intros m; cbn [foldl].
  { split_and!; [apply Qle_refl|constructor|by left]. }
  destruct (IH (if Qlt_bool pt.2 m then pt.2 else m)) as (Hle & Hall & Hin).
  set (r := foldl _ _ pts) in *.
  assert ((if Qlt_bool pt.2 m then pt.2 else m) <= m
          /\ (if Qlt_bool pt.2 m then pt.2 else m) <= pt.2)%Q as [Hm Hpt].
  { destruct (Qlt_bool pt.2 m) eqn:Hlt.
    - apply Qlt_bool_true in Hlt. split; [by apply Qlt_le_weak|apply Qle_refl].
    - apply Qlt_bool_false in Hlt. split; [apply Qle_refl|done]. }
  split_and!.
  - by eapply Qle_trans.
  - constructor; [by eapply Qle_trans|done].
  - destruct Hin as [Hr|(pt' & Hpt' & Hr)].
    + destruct (Qlt_bool pt.2 m); [right|by left].
      exists pt. split; [by left|done].
    + right. exists pt'. split; [by right|done].
Qed.

Lemma min_y_Ok (bbox : list (Q * Q)) :
  bbox <> [] -> exists k, min_y bbox = Ok k.
Proof. destruct bbox; [done|]. by eexists. Qed.

Lemma with_keys_Ok (results : list fragment) :
  Forall (fun f => f.1.1 <> []) results ->
  with_keys results = Ok (map (fun f => (top f, f)) results).
Proof.
  induction 1 as [|f results Hf _ IH]; [done|].
  cbn [with_keys map]. unfold top at 1.
  destruct (min_y_Ok _ Hf) as [k ->]. cbn [mbind result_bind].
  by rewrite IH.
Qed.

Lemma with_keys_Raise (results : list fragment) :
  Exists (fun f => f.1.1 = []) results ->
  with_keys results = Raise ValueError.
Proof.
  induction 1 as [f results Hf|f results _ IH]; cbn [with_keys].
  - by rewrite Hf.
  - rewrite IH. by destruct (f.1.1).
Qed.

Lemma boxes_empty_or_not (results : list fragment) :
  Forall (fun f => f.1.1 <> []) results
  \/ Exists (fun f => f.1.1 = []) results.
Proof.
  induction results as [|f results [IH|IH]].
  - left. constructor.
  - destruct (decide (f.1.1 = [])); [right; by left|left; by constructor].
  - right. by right.
Qed.

Lemma insert_by_key_perm x (l : list (Q * fragment)) :
  insert_by_key x l ≡ₚ x :: l.
Proof.
  induction l as [|y l IH]; cbn [insert_by_key]; [done|].
  destruct (Qlt_bool y.1 x.1); [|done].
  rewrite IH. apply Permutation_swap.
Qed.

Lemma sorted_by_key_perm (l : list (Q * fragment)) : sorted_by_key l ≡ₚ l.
Proof.
  unfold sorted_by_key. induction l as [|x l IH]; cbn [foldr]; [done|].
  by rewrite insert_by_key_perm, IH.
Qed.

Lemma insert_by_key_sorted x (l : list (Q * fragment)) :
  StronglySorted (fun a b => (a.1 <= b.1)%Q) l ->
  StronglySorted (fun a b => (a.1 <= b.1)%Q) (insert_by_key x l).
Proof.
  induction 1 as [|y l Hl IH Hy]; cbn [insert_by_key].
  { repeat constructor. }
  destruct (Qlt_bool y.1 x.1) eqn:Hlt.
  - apply Qlt_bool_true in Hlt. constructor; [done|].
    rewrite insert_by_key_perm. constructor; [by apply Qlt_le_weak|done].
  - apply Qlt_bool_false in Hlt. constructor; [by constructor|].
    constructor; [done|]. eapply Forall_impl; [exact Hy|].
    intros z Hz. by eapply Qle_trans.
Qed.

Lemma sorted_by_key_sorted (l : list (Q * fragment)) :
  StronglySorted (fun a b => (a.1 <= b.1)%Q) (sorted_by_key l).
Proof.
  unfold sorted_by_key. induction l as [|x l IH]; cbn [foldr].
  - constructor.
  - by apply insert_by_key_sorted.
Qed.

Lemma insert_by_key_filter (k : Q) x (l : list (Q * fragment)) :
  filter (fun a => (a.1 == k)%Q) (insert_by_key x l)
  = filter (fun a => (a.1 == k)%Q) (x :: l).
Proof.
  induction l as [|y l IH]; cbn [insert_by_key]; [done|].
  destruct (Qlt_bool y.1 x.1) eqn:Hlt; [|done].
  apply Qlt_bool_true in Hlt.
  rewrite (filter_cons _ y), IH, !(filter_cons _ x), (filter_cons _ y).
  destruct (decide (y.1 == k)%Q) as [Hy|Hy]; [|done].
  destruct (decide (x.1 == k)%Q) as [Hx|Hx]; [|done].
  rewrite Hy, Hx in Hlt. by apply Qlt_irrefl in Hlt.
Qed.

Lemma sorted_by_key_filter (k : Q) (l : list (Q * fragment)) :
  filter (fun a => (a.1 == k)%Q) (sorted_by_key l)
  = filter (fun a => (a.1 == k)%Q) l.
Proof.
  unfold sorted_by_key. induction l as [|x l IH]; cbn [foldr]; [done|].
  by rewrite insert_by_key_filter, !(filter_cons _ x), IH.
Qed.

Lemma sorted_by_key_id (l : list (Q * fragment)) :
  StronglySorted (fun a b => (a.1 <= b.1)%Q) l -> sorted_by_key l = l.
Proof.
  unfold sorted_by_key. induction 1 as [|x l _ IH Hx]; cbn [foldr]; [done|].
  rewrite IH. destruct Hx as [|y l Hy _]; cbn [insert_by_key]; [done|].
  apply Qlt_bool_false in Hy. by rewrite Hy.
Qed.

Lemma group_close_texts_keyed (results : list fragment) :
  Forall (fun f => f.1.1 <> []) results ->
  exists sorted,
    group_close_texts results = Ok (map (fun res => [res]) sorted) /\
    sorted = map snd (sorted_by_key (map (fun f => (top f, f)) results)) /\
    sorted_by_key (map (fun f => (top f, f)) results)
    = map (fun f => (top f, f)) sorted.
Proof.
  intros Hboxes. eexists. split_and!; [|done|].
  - unfold group_close_texts. by rewrite with_keys_Ok.
  - rewrite map_map.
    assert (Forall (fun a : Q * fragment => a.1 = top a.2)
              (sorted_by_key (map (fun f => (top f, f)) results))) as Hkeys.
    { rewrite sorted_by_key_perm. by apply Forall_fmap, Forall_true. }
    induction Hkeys as [|[k f] l Hk _ IH]; [done|].
    cbn [map fst snd] in *. by rewrite <- Hk, <- IH.
Qed.

Lemma concat_singletons {A} (l : list A) :
  concat (map (fun x => [x]) l) = l.
Proof. induction l as [|x l IH]; [done|]. cbn. by rewrite IH. Qed.

Lemma StronglySorted_fmap_inv {A B} (f : A -> B) (R : relation B) l :
  StronglySorted R (map f l) -> StronglySorted (fun x y => R (f x) (f y)) l.
Proof.
  induction l as [|x l IH]; cbn [map]; [constructor|].
  intros [Hx Hl]%StronglySorted_cons. constructor; [by apply IH|].
  apply Forall_forall. intros y Hy. rewrite Forall_forall in Hx.
  apply Hx, list_elem_of_fmap. by exists y.
Qed.

Lemma filter_map_keyed (k : Q) (l : list fragment) :
  filter (fun a : Q * fragment => (a.1 == k)%Q) (map (fun f => (top f, f)) l)
  = map (fun f => (top f, f)) (filter (fun f => (top f == k)%Q) l).
Proof.
  induction l as [|f l IH]; [done|].
  cbn [map]. rewrite !filter_cons, IH. cbn [fst].
  by destruct (decide (top f == k)%Q).
Qed.

Lemma map_snd_keyed (l : list fragment) :
  map snd (map (fun f => (top f, f)) l) = l.
Proof. rewrite map_map. apply map_id. Qed.

Lemma group_close_texts_Ok_inv (results : list fragment) groups :
  group_close_texts results = Ok groups ->
  Forall (fun f => f.1.1 <> []) results /\
  groups = map (fun res => [res]) (concat groups) /\
  sorted_by_key (map (fun f => (top f, f)) results)
  = map (fun f => (top f, f)) (concat groups).
Proof.
  intros Hg. destruct (boxes_empty_or_not results) as [Hboxes|Hempty].
  - destruct (group_close_texts_keyed results Hboxes)
      as (sorted & Hsorted & _ & Hkeyed).
    rewrite Hsorted in Hg. injection Hg as <-.
    by rewrite concat_singletons.
  - unfold group_close_texts in Hg. by rewrite with_keys_Raise in Hg.
Qed.

(** X1. The grouping raises [ValueError], and nothing else, exactly when
    some result has a bounding box without corners. *)
Theorem group_close_texts_raises (results : list fragment) :
  (Forall (fun f => f.1.1 <> []) results
   <-> exists groups, group_close_texts results = Ok groups) /\
  (Exists (fun f => f.1.1 = []) results
   <-> group_close_texts results = Raise ValueError) /\
  (forall e, group_close_texts results = Raise e -> e = ValueError).
Proof.
  assert (Exists (fun f => f.1.1 = []) results ->
          group_close_texts results = Raise ValueError) as Hraise.
  { intros Hempty. unfold group_close_texts. by rewrite with_keys_Raise. }
  assert (Forall (fun f => f.1.1 <> []) results ->
          exists groups, group_close_texts results = Ok groups) as Hok.
  { intros Hboxes.
    destruct (group_close_texts_keyed results Hboxes) as (? & ? & _). eauto. }
  split_and!.
  - split; [done|]. intros [groups Hg].
    by apply group_close_texts_Ok_inv in Hg as [? _].
  - split; [done|]. intros Hg.
    destruct (boxes_empty_or_not results) as [Hboxes|]; [|done].
    apply Hok in Hboxes as [groups Hgroups]. congruence.
  - intros e He.
    destruct (boxes_empty_or_not results) as [[groups Hg]%Hok|Hempty%Hraise];
      congruence.
Qed.

(** X2. The key of the sort is the least height among the corners of the
    box: it is the height of one of the corners and no corner is higher
    up. *)
Theorem min_y_least (bbox : list (Q * Q)) (k : Q) :
  min_y bbox = Ok k ->
  (exists pt, pt ∈ bbox /\ k = pt.2) /\
  Forall (fun pt => (k <= pt.2)%Q) bbox.
Proof.
  destruct bbox as [|pt pts]; [done|]. cbn [min_y]. intros [= <-].
  destruct (foldl_min_spec pts pt.2) as (Hle & Hall & Hin).
  split; [|by constructor].
  destruct Hin as [Hr|(pt' & Hpt' & Hr)].
  - exists pt. split; [by left|done].
  - exists pt'. split; [by right|done].
Qed.

(** X3. Every result becomes a group of its own: there are as many groups
    as results, each with one element, and together they hold the results
    that came in, each as often as it came in. *)
Theorem group_close_texts_singletons (results : list fragment) groups :
  group_close_texts results = Ok groups ->
  length groups = length results /\
  Forall (fun group => length group = 1) groups /\
  concat groups ≡ₚ results.
Proof.
  intros (_ & Hgroups & Hkeyed)%group_close_texts_Ok_inv.
  assert (concat groups ≡ₚ results) as Hperm.
  { rewrite <- (map_snd_keyed (concat groups)), <- Hkeyed.
    rewrite sorted_by_key_perm. by rewrite map_snd_keyed. }
  split_and!; [|by rewrite Hgroups; apply Forall_fmap, Forall_true|done].
  rewrite Hgroups, length_map. by apply Permutation_length.
Qed.

(** X4. The groups come out from top to bottom: no group is below a later
    one. *)
Theorem group_close_texts_sorted (results : list fragment) groups :
  group_close_texts results = Ok groups ->
  StronglySorted not_below (concat groups).
Proof.
  intros (_ & _ & Hkeyed)%group_close_texts_Ok_inv.
  apply (StronglySorted_fmap_inv (fun f => (top f, f))
           (fun a b => (a.1 <= b.1)%Q)).
  rewrite <- Hkeyed. apply sorted_by_key_sorted.
Qed.

(** X5. The sort is stable: results at the same height keep the order in
    which they came in, and results that came in from top to bottom are
    left as they are. *)
Theorem group_close_texts_stable (results : list fragment) groups :
  group_close_texts results = Ok groups ->
  (forall k : Q,
     filter (fun f => (top f == k)%Q) (concat groups)
     = filter (fun f => (top f == k)%Q) results) /\
  (StronglySorted not_below results -> concat groups = results).
Proof.
  intros (_ & _ & Hkeyed)%group_close_texts_Ok_inv. split.
  - intros k.
    pose proof (sorted_by_key_filter k (map (fun f => (top f, f)) results))
      as Hfilter.
    rewrite Hkeyed in Hfilter.
    rewrite !filter_map_keyed in Hfilter.
    apply (f_equal (map snd)) in Hfilter. by rewrite !map_snd_keyed in Hfilter.
  - intros Hsorted. rewrite sorted_by_key_id in Hkeyed.
    + apply (f_equal (map snd)) in Hkeyed. by rewrite !map_snd_keyed in Hkeyed.
    + by apply (StronglySorted_fmap (fun f => (top f, f)) not_below).
Qed.

(** X6. When results at the same height are the same result, the order in
    which the reader lists the results does not matter: the groups, and what
    the recognizer returns, are the same for any rearrangement. *)
Theorem group_close_texts_order (results results' : list fragment) :
  results' ≡ₚ results ->
  (forall f g, f ∈ results -> g ∈ results -> (top f == top g)%Q -> f = g) ->
  group_close_texts results' = group_close_texts results /\
  (forall image_path,
     recognize_plate image_path (Readable results')
     = recognize_plate image_path (Readable results)).
Proof.
  intros Hperm Hdistinct.
  assert (group_close_texts results' = group_close_texts results) as Hsame.
  { destruct (boxes_empty_or_not results) as [Hboxes|Hempty].
    - assert (Forall (fun f => f.1.1 <> []) results') as Hboxes'
        by (by rewrite Hperm).
      unfold group_close_texts. rewrite !with_keys_Ok by done.
      cbn [mbind result_bind]. do 3 f_equal.
      apply (StronglySorted_unique_strong (fun a b => (a.1 <= b.1)%Q));
        [|apply sorted_by_key_sorted..|].
      + intros a b. rewrite !sorted_by_key_perm.
        intros (f & -> & Hf)%list_elem_of_fmap (g & -> & Hg)%list_elem_of_fmap.
        cbn [fst]. intros Hle Hge. rewrite Hperm in Hf.
        by rewrite (Hdistinct f g Hf Hg (Qle_antisym _ _ Hle Hge)).
      + by rewrite !sorted_by_key_perm, Hperm.
    - assert (Exists (fun f => f.1.1 = []) results') as Hempty'
        by (by rewrite Hperm).
      unfold group_close_texts. by rewrite !with_keys_Raise. }
  split; [done|]. intros image_path. cbn [recognize_plate]. by rewrite Hsame.
Qed.

(** ** Recognizer *)

(** X7. The recognizer raises only [ValueError], and only when the file
    was read and some result has a box without corners; in every other
    case it returns a string that is not empty. *)
Theorem recognize_plate_outcome (image_path : str) (file : image_file) :
  (forall s, recognize_plate image_path file = Ok s -> s <> []) /\
  (forall e,
     recognize_plate image_path file = Raise e
     <-> e = ValueError /\
         exists results,
           file = Readable results /\ Exists (fun f => f.1.1 = []) results).
Proof.
  split.
  - intros s Hs. destruct file as [| |results]; cbn [recognize_plate] in Hs.
    + by injection Hs as <-.
    + by injection Hs as <-.
    + destruct (group_close_texts results) as [groups|]; [|done].
      cbn [mbind result_bind] in Hs.
      rewrite extract_candidate_from_group_Ok in Hs.
      cbn [mbind result_bind] in Hs.
      destruct (search (concat groups)) as [[|c cs]|]; by injection Hs as <-.
  - intros e. split.
    + intros He. destruct file as [| |results]; [done..|].
      cbn [recognize_plate] in He.
      destruct (boxes_empty_or_not results) as [Hboxes|Hempty].
      * destruct (group_close_texts_keyed results Hboxes) as (? & Hg & _).
        rewrite Hg in He. cbn [mbind result_bind] in He.
        rewrite extract_candidate_from_group_Ok in He.
        cbn [mbind result_bind] in He.
        by destruct (search _) as [[|c cs]|].
      * unfold group_close_texts in He.
        rewrite with_keys_Raise in He by done. injection He as <-. eauto.
    + intros (-> & results & -> & Hempty). cbn [recognize_plate].
      unfold group_close_texts. by rewrite with_keys_Raise.
Qed.

(** ** Normalizer, again *)

Lemma filter_all {A} (P : A -> Prop) `{!forall x, Decision (P x)} (l : list A) :
  Forall P l -> filter P l = l.
Proof.
  induction 1 as [|x l Hx _ IH]; [done|].
  rewrite filter_cons, IH. by destruct (decide (P x)).
Qed.

Lemma keeps_ascii (c : char) : keeps c = true -> is_ascii c = true.
Proof.
  intros H. bool_to_Prop H. unfold is_ascii. apply N.ltb_lt. lia.
Qed.

Lemma keeps_upper (c : char) : keeps c = true -> upper_char c = c.
Proof.
  intros H. unfold upper_char. destruct (is_lower_az c) eqn:Hlow; [|done].
  bool_to_Prop H. bool_to_Prop Hlow. lia.
Qed.

Lemma clean_text_keeps (text : str) :
  Forall (fun c => keeps c = true) (clean_text text).
Proof.
  apply Forall_forall. intros c Hc.
  by apply list_elem_of_filter in Hc as [Hc%Is_true_true _].
Qed.

Lemma clean_text_fixed (text : str) :
  Forall (fun c => keeps c = true) text -> clean_text text = text.
Proof.
  intros Hkeeps. unfold clean_text, normalize_NFKD.
  assert (Forall (fun c => is_ascii c = true) text) as Hascii.
  { eapply Forall_impl; [exact Hkeeps|]. apply keeps_ascii. }
  apply forallb_eq_true in Hascii as Hb. rewrite Hb.
  unfold encode_ascii_ignore. rewrite filter_all.
  2:{ eapply Forall_impl; [exact Hascii|]. intros c. apply Is_true_true. }
  unfold upper. replace (map upper_char text) with text.
  2:{ clear Hascii Hb. induction Hkeeps as [|c text Hc _ IH]; [done|].
      cbn [map]. by rewrite keeps_upper, <- IH. }
  unfold re_sub_non_alnum. apply filter_all.
  eapply Forall_impl; [exact Hkeeps|]. intros c. apply Is_true_true.
Qed.

Lemma keeps_of_range (c : char) :
  (chr "A" <= c <= chr "Z")%N \/ (chr "0" <= c <= chr "9")%N ->
  keeps c = true.
Proof.
  change (chr "A") with 65%N. change (chr "Z") with 90%N.
  change (chr "0") with 48%N. change (chr "9") with 57%N. intros H.
  unfold keeps, is_upper_AZ, is_digit_09, in_range.
  rewrite orb_true_iff, !andb_true_iff, !N.leb_le. lia.
Qed.

(** X8. A text of the characters A-Z and 0-9 is its own normal form, and
    normalizing twice is normalizing once. *)
Theorem clean_text_idempotent :
  (forall text,
     Forall (fun c => (chr "A" <= c <= chr "Z")%N \/ (chr "0" <= c <= chr "9")%N)
       text ->
     clean_text text = text) /\
  (forall text, clean_text (clean_text text) = clean_text text).
Proof.
  split.
  - intros text Htext. apply clean_text_fixed.
    eapply Forall_impl; [exact Htext|]. apply keeps_of_range.
  - intros text. apply clean_text_fixed, clean_text_keeps.
Qed.

(** ** Ambiguity expander, again *)

Lemma ambiguous_table_heads :
  Forall (fun p => head p.2 = Some p.1) ambiguous_table.
Proof. apply (bool_decide_eq_true_1 _). vm_compute. reflexivity. Qed.

Lemma ambiguous_table_closed :
  Forall (fun p =>
    Forall (fun d => is_Some (ambiguous_map !! d) /\ options_for d ⊆ p.2) p.2)
    ambiguous_table.
Proof. apply (bool_decide_eq_true_1 _). vm_compute. reflexivity. Qed.

Lemma options_for_head (c : char) : head (options_for c) = Some c.
Proof.
  unfold options_for. destruct (ambiguous_map !! c) as [vs|] eqn:Hc; [|done].
  apply ambiguous_map_lookup in Hc.
  pose proof ambiguous_table_heads as Htable.
  rewrite Forall_forall in Htable. by apply (Htable (c, vs)).
Qed.

Lemma generate_ambiguity_variants_head (s : str) :
  head (generate_ambiguity_variants s) = Some s.
Proof.
  unfold generate_ambiguity_variants.
  induction s as [|c s IH]; [done|]. cbn [map product].
  destruct (options_for c) as [|d ds] eqn:Hc;
    pose proof (options_for_head c) as Hd; rewrite Hc in Hd; [done|].
  injection Hd as ->. cbn [flat_map].
  destruct (product (map options_for s)) as [|v vs]; [done|].
  by injection IH as ->.
Qed.

Lemma elem_of_generate_ambiguity_variants (s v : str) :
  v ∈ generate_ambiguity_variants s <-> Forall2 is_variant s v.
Proof.
  unfold generate_ambiguity_variants.
  rewrite elem_of_product, Forall2_fmap_l.
  split; intros H; (eapply Forall2_impl; [exact H|]); intros c d;
    apply elem_of_options_for.
Qed.

Lemma NoDup_generate_ambiguity_variants (s : str) :
  NoDup (generate_ambiguity_variants s).
Proof.
  apply NoDup_product, Forall_fmap, Forall_forall.
  intros c _. apply options_for_NoDup.
Qed.

Lemma is_variant_closed (c d : char) (vs : list char) :
  ambiguous_map !! c = Some vs -> d ∈ vs ->
  exists vd, ambiguous_map !! d = Some vd /\ vd ⊆ vs.
Proof.
  intros Hc%ambiguous_map_lookup Hd.
  pose proof ambiguous_table_closed as Htable.
  rewrite Forall_forall in Htable. specialize (Htable (c, vs) Hc).
  rewrite Forall_forall in Htable. destruct (Htable d Hd) as [[vd Hvd] Hsub].
  exists vd. split; [done|]. unfold options_for in Hsub. by rewrite Hvd in Hsub.
Qed.

Lemma is_variant_sym (c d : char) : is_variant c d -> is_variant d c.
Proof.
  unfold is_variant at 1. destruct (ambiguous_map !! c) as [vs|] eqn:Hc.
  - intros Hd. destruct (is_variant_closed c d vs Hc Hd) as (vd & Hvd & _).
    unfold is_variant. rewrite Hvd.
    apply ambiguous_map_lookup in Hc, Hvd.
    pose proof ambiguous_table_symmetric as Htable.
    rewrite Forall_forall in Htable.
    destruct (Htable (c, vs) Hc) as [_ Hsym].
    rewrite Forall_forall in Hsym. by apply (Hsym (d, vd)).
  - intros ->. apply is_variant_self.
Qed.

Lemma is_variant_trans (c d e : char) :
  is_variant c d -> is_variant d e -> is_variant c e.
Proof.
  unfold is_variant at 1 3. destruct (ambiguous_map !! c) as [vs|] eqn:Hc.
  - intros Hd. destruct (is_variant_closed c d vs Hc Hd) as (vd & Hvd & Hsub).
    unfold is_variant. rewrite Hvd. apply Hsub.
  - intros ->. unfold is_variant. by rewrite Hc.
Qed.

(** X9. The first variant that the expander yields is the text itself, so a
    text that is valid is what a search over its variants returns. *)
Theorem generate_ambiguity_variants_first (s : str) :
  head (generate_ambiguity_variants s) = Some s /\
  (valid s = true -> find valid (generate_ambiguity_variants s) = Some s).
Proof.
  pose proof (generate_ambiguity_variants_head s) as Hhead.
  split; [done|]. intros Hvalid.
  apply head_Some in Hhead as [rest ->]. cbn [find]. by rewrite Hvalid.
Qed.

(** X10. Being a variant is an equivalence: a variant of a text has the
    text among its own variants, and has the same variants as the text. *)
Theorem generate_ambiguity_variants_classes (s v : str) :
  v ∈ generate_ambiguity_variants s ->
  s ∈ generate_ambiguity_variants v /\
  (forall w, w ∈ generate_ambiguity_variants v
             <-> w ∈ generate_ambiguity_variants s) /\
  generate_ambiguity_variants v ≡ₚ generate_ambiguity_variants s.
Proof.
  rewrite elem_of_generate_ambiguity_variants. intros Hsv.
  assert (Forall2 is_variant v s) as Hvs.
  { apply Forall2_flip. eapply Forall2_impl; [exact Hsv|].
    intros c d. apply is_variant_sym. }
  assert (forall w, w ∈ generate_ambiguity_variants v
                    <-> w ∈ generate_ambiguity_variants s) as Hsame.
  { intros w. rewrite !elem_of_generate_ambiguity_variants.
    split; intros Hw; (eapply Forall2_trans; [|eassumption..]);
      apply is_variant_trans. }
  split_and!; [by apply elem_of_generate_ambiguity_variants|done|].
  by apply NoDup_Permutation; [apply NoDup_generate_ambiguity_variants..|].
Qed.

(** ** Where the candidates come from *)

Lemma elem_of_ordered_pairs {A} (l : list A) (a b : A) :
  (a, b) ∈ ordered_pairs l
  <-> exists i j, i < j /\ l !! i = Some a /\ l !! j = Some b.
Proof.
  induction l as [|x l IH]; cbn [ordered_pairs].
  { split; [by intros ?%elem_of_nil|by intros (i & j & _ & ? & _)]. }
  rewrite elem_of_app, list_elem_of_fmap, IH. split.
  - intros [(y & [= -> ->] & Hy)|(i & j & Hij & Hi & Hj)].
    + apply list_elem_of_lookup in Hy as [j Hj].
      exists 0, (S j). split_and!; [lia|done..].
    + exists (S i), (S j). split_and!; [lia|done..].
  - intros (i & j & Hij & Hi & Hj). destruct j as [|j]; [lia|].
    destruct i as [|i].
    + left. injection Hi as ->. exists b. split; [done|].
      apply list_elem_of_lookup. by exists j.
    + right. exists i, j. split_and!; [lia|done..].
Qed.

Lemma elem_of_enumerate_from {A} (l : list A) (k i : nat) (a : A) :
  (i, a) ∈ zip (seq k (length l)) l <-> k <= i /\ l !! (i - k) = Some a.
Proof.
  revert k. induction l as [|x l IH]; intros k; cbn [length seq zip zip_with].
  { split; [by intros ?%elem_of_nil|by intros [_ ?]]. }
  rewrite elem_of_cons. unfold zip in IH. rewrite IH. split.
  - intros [[= -> ->]|[Hk Hi]].
    + split; [lia|]. by rewrite Nat.sub_diag.
    + split; [lia|]. by replace (i - k) with (S (i - S k)) by lia.
  - intros [Hk Hi]. destruct (decide (i = k)) as [->|Hne].
    + left. rewrite Nat.sub_diag in Hi. by injection Hi as ->.
    + right. split; [lia|].
      by replace (i - k) with (S (i - S k)) in Hi by lia.
Qed.

Lemma elem_of_enumerate {A} (l : list A) (i : nat) (a : A) :
  (i, a) ∈ enumerate l <-> l !! i = Some a.
Proof.
  unfold enumerate. rewrite elem_of_enumerate_from, Nat.sub_0_r.
  split; [by intros [_ ?]|]. split; [lia|done].
Qed.

Lemma elem_of_permutations2 {A} (l : list A) (a b : A) :
  (a, b) ∈ permutations2 l
  <-> exists i j, i <> j /\ l !! i = Some a /\ l !! j = Some b.
Proof.
  unfold permutations2. rewrite list_elem_of_In, in_flat_map. split.
  - intros ([i a'] & Hi%list_elem_of_In%elem_of_enumerate & Hin).
    apply in_flat_map in Hin
      as ([j b'] & Hj%list_elem_of_In%elem_of_enumerate & Hin).
    cbn [fst snd] in Hin. destruct (Nat.eqb_spec i j) as [|Hne]; [done|].
    destruct Hin as [[= -> ->]|[]]. by exists i, j.
  - intros (i & j & Hne & Hi & Hj). exists (i, a).
    split; [by apply list_elem_of_In, elem_of_enumerate|].
    apply in_flat_map. exists (j, b).
    split; [by apply list_elem_of_In, elem_of_enumerate|].
    cbn [fst snd]. destruct (Nat.eqb_spec i j); [done|by left].
Qed.

Lemma ordered_pairs_permutations2 {A} (l : list A) (p : A * A) :
  p ∈ ordered_pairs l -> p ∈ permutations2 l.
Proof.
  destruct p as [a b]. rewrite elem_of_ordered_pairs, elem_of_permutations2.
  intros (i & j & Hij & Hi & Hj). exists i, j. split_and!; [lia|done..].
Qed.

Lemma elem_of_windows {A} (L : nat) (s w : list A) :
  0 < L ->
  w ∈ windows L s <-> exists j, j + L <= length s /\ w = take L (drop j s).
Proof.
  intros HL. rewrite windows_positions, list_elem_of_fmap by done. split.
  - intros (j & -> & Hj%elem_of_seq). exists j. split; [lia|done].
  - intros (j & Hj & ->). exists j. split; [done|].
    apply elem_of_seq. lia.
Qed.

Lemma elem_of_sliding_windows (combined w : str) :
  w ∈ sliding_windows combined
  <-> exists j L,
        (L = 6 \/ L = 7 \/ L = 8) /\ j + L <= length combined /\
        w = take L (drop j combined).
Proof.
  unfold sliding_windows. rewrite !elem_of_app, !elem_of_windows by lia. split.
  - intros [(j & ? & ?)|[(j & ? & ?)|(j & ? & ?)]];
      [exists j, 6|exists j, 7|exists j, 8]; split_and!; auto.
  - intros (j & L & [-> | [-> | ->]] & ? & ?); eauto 6.
Qed.

Lemma is_base_iff (group : list fragment) (c : str) :
  is_base group c
  <-> c ∈ permuted_concats (cleaned_texts group) ++ cleaned_texts group
          ++ sliding_windows (concat (fallback_texts group)).
Proof.
  unfold is_base, permuted_concats.
  rewrite !elem_of_app, list_elem_of_fmap, elem_of_sliding_windows.
  apply or_iff_compat_r. split.
  - intros (i & j & a & b & Hne & Ha & Hb & ->). exists (a, b).
    split; [done|]. apply elem_of_permutations2. by exists i, j.
  - intros ([a b] & -> & (i & j & Hne & Ha & Hb)%elem_of_permutations2).
    by exists i, j, a, b.
Qed.

Lemma find_None {A} (f : A -> bool) (l : list A) :
  find f l = None <-> forall x, x ∈ l -> f x = false.
Proof.
  induction l as [|y l IH]; cbn [find].
  { split; [by intros _ x ?%elem_of_nil|done]. }
  destruct (f y) eqn:Hy.
  - split; [done|]. intros H. rewrite H in Hy; [done|by left].
  - rewrite IH. split.
    + intros H x [->|Hx]%elem_of_cons; auto.
    + intros H x Hx. apply H. by right.
Qed.

Lemma first_some_None {A B} (g : A -> option B) (l : list A) :
  first_some g l = None <-> forall x, x ∈ l -> g x = None.
Proof.
  induction l as [|y l IH]; cbn [first_some].
  { split; [by intros _ x ?%elem_of_nil|done]. }
  destruct (g y) eqn:Hy.
  - split; [done|]. intros H. rewrite H in Hy; [done|by left].
  - rewrite IH. split.
    + intros H x [->|Hx]%elem_of_cons; auto.
    + intros H x Hx. apply H. by right.
Qed.

Lemma find_Some_elem_of {A} (f : A -> bool) (l : list A) (x : A) :
  find f l = Some x -> x ∈ l /\ f x = true.
Proof. intros [Hx ?]%find_some. split; [by apply list_elem_of_In|done]. Qed.

Lemma generate_ambiguity_variants_self (s : str) :
  s ∈ generate_ambiguity_variants s.
Proof. apply head_Some_elem_of, generate_ambiguity_variants_head. Qed.

Lemma pair_concats_permuted (cleaned : list str) (c : str) :
  c ∈ pair_concats cleaned -> c ∈ permuted_concats cleaned.
Proof.
  unfold pair_concats, permuted_concats. rewrite !list_elem_of_fmap.
  intros (p & -> & Hp). exists p. split; [done|].
  by apply ordered_pairs_permutations2.
Qed.

Lemma elem_of_flat_map_variants (l : list str) (s : str) :
  s ∈ flat_map generate_ambiguity_variants l
  <-> exists c, c ∈ l /\ s ∈ generate_ambiguity_variants c.
Proof.
  rewrite list_elem_of_In, in_flat_map.
  split; intros (c & Hc & Hs); exists c; by rewrite ?list_elem_of_In in *.
Qed.

Lemma window_match_Some (w s : str) :
  window_match w = Some s ->
  s ∈ generate_ambiguity_variants w /\ valid s = true.
Proof.
  unfold window_match. destruct (valid w) eqn:Hw.
  - intros [= <-]. split; [apply generate_ambiguity_variants_self|done].
  - apply find_Some_elem_of.
Qed.

Lemma window_match_None (w : str) :
  window_match w = None
  <-> forall v, v ∈ generate_ambiguity_variants w -> valid v = false.
Proof.
  unfold window_match. rewrite <- find_None. destruct (valid w) eqn:Hw; [|done].
  split; [done|]. rewrite find_None. intros H.
  rewrite H in Hw; [done|apply generate_ambiguity_variants_self].
Qed.

(** The search, seen from its candidates. *)
Lemma search_Some_base (group : list fragment) (s : str) :
  search group = Some s ->
  exists c,
    c ∈ permuted_concats (cleaned_texts group) ++ cleaned_texts group
          ++ sliding_windows (concat (fallback_texts group)) /\
    s ∈ generate_ambiguity_variants c.
Proof.
  unfold search, or_else. intros H.
  destruct (find priority_rule _) eqn:E1.
  { injection H as ->. apply find_Some_elem_of in E1 as [Hs _].
    exists s. split; [|apply generate_ambiguity_variants_self].
    by apply elem_of_app; left; apply pair_concats_permuted. }
  destruct (find valid (pair_concats _)) eqn:E2.
  { injection H as ->. apply find_Some_elem_of in E2 as [Hs _].
    exists s. split; [|apply generate_ambiguity_variants_self].
    by apply elem_of_app; left; apply pair_concats_permuted. }
  destruct (find valid (permuted_concats _)) eqn:E3.
  { injection H as ->. apply find_Some_elem_of in E3 as [Hs _].
    exists s. split; [|apply generate_ambiguity_variants_self].
    by apply elem_of_app; left. }
  destruct (find valid (flat_map _ (permuted_concats _))) eqn:E4.
  { injection H as ->. apply find_Some_elem_of in E4 as [Hs _].
    apply elem_of_flat_map_variants in Hs as (c & Hc & Hs).
    exists c. split; [|done]. by apply elem_of_app; left. }
  destruct (find valid (cleaned_texts group)) eqn:E5.
  { injection H as ->. apply find_Some_elem_of in E5 as [Hs _].
    exists s. split; [|apply generate_ambiguity_variants_self].
    by apply elem_of_app; right; apply elem_of_app; left. }
  destruct (find valid (flat_map _ (cleaned_texts group))) eqn:E6.
  { injection H as ->. apply find_Some_elem_of in E6 as [Hs _].
    apply elem_of_flat_map_variants in Hs as (c & Hc & Hs).
    exists c. split; [|done]. by apply elem_of_app; right; apply elem_of_app; left. }
  apply first_some_Some in H as (pre & w & post & Hw & Hmatch & _).
  apply window_match_Some in Hmatch as [Hs _].
  exists w. split; [|done]. apply elem_of_app; right; apply elem_of_app; right.
  rewrite Hw, elem_of_app. right. by left.
Qed.

Lemma search_None (group : list fragment) :
  search group = None
  <-> (forall c, c ∈ pair_concats (cleaned_texts group) ->
                 priority_rule c = false) /\
      (forall c v,
         c ∈ permuted_concats (cleaned_texts group) ++ cleaned_texts group
               ++ sliding_windows (concat (fallback_texts group)) ->
         v ∈ generate_ambiguity_variants c -> valid v = false).
Proof.
  split.
  - unfold search, or_else. intros H.
    destruct (find priority_rule _) eqn:E1; [done|].
    destruct (find valid (pair_concats _)) eqn:E2; [done|].
    destruct (find valid (permuted_concats _)) eqn:E3; [done|].
    destruct (find valid (flat_map _ (permuted_concats _))) eqn:E4; [done|].
    destruct (find valid (cleaned_texts group)) eqn:E5; [done|].
    destruct (find valid (flat_map _ (cleaned_texts group))) eqn:E6; [done|].
    split; [by apply find_None|].
    intros c v [Hc|[Hc|Hc]%elem_of_app]%elem_of_app Hv.
    + rewrite find_None in E4. apply E4, elem_of_flat_map_variants. eauto.
    + rewrite find_None in E6. apply E6, elem_of_flat_map_variants. eauto.
    + rewrite first_some_None in H. apply H in Hc.
      rewrite window_match_None in Hc. by apply Hc.
  - intros [Hprio Hvalid]. unfold search, or_else.
    assert (forall l : list str,
              (forall c, c ∈ l ->
                 c ∈ permuted_concats (cleaned_texts group)
                       ++ cleaned_texts group
                       ++ sliding_windows (concat (fallback_texts group))) ->
              find valid l = None
              /\ find valid (flat_map generate_ambiguity_variants l) = None)
      as Hnone.
    { intros l Hl. split; apply find_None.
      - intros c Hc. apply (Hvalid c c); [by apply Hl|].
        apply generate_ambiguity_variants_self.
      - intros v (c & Hc & Hv)%elem_of_flat_map_variants.
        apply (Hvalid c v); [by apply Hl|done]. }
    replace (find priority_rule _) with (@None str)
      by (symmetry; by apply find_None).
    destruct (Hnone (pair_concats (cleaned_texts group))) as [-> _].
    { intros c Hc. by apply elem_of_app; left; apply pair_concats_permuted. }
    destruct (Hnone (permuted_concats (cleaned_texts group))) as [-> ->].
    { intros c Hc. by apply elem_of_app; left. }
    destruct (Hnone (cleaned_texts group)) as [-> ->].
    { intros c Hc. by apply elem_of_app; right; apply elem_of_app; left. }
    apply first_some_None. intros w Hw. apply window_match_None.
    intros v Hv. apply (Hvalid w v); [|done].
    by apply elem_of_app; right; apply elem_of_app; right.
Qed.

(** X11. What the search returns is an ambiguity variant (the string
    itself being one) of the concatenation of the tokens at two different
    positions, of a token, or of a window of 6, 7 or 8 characters of the
    joined fallback texts. *)
Theorem search_provenance (group : list fragment) (s : str) :
  extract_candidate_from_group group = Ok (Some s) ->
  exists c, is_base group c /\ Forall2 is_variant c s.
Proof.
  rewrite extract_candidate_from_group_Ok. intros [= Hs].
  apply search_Some_base in Hs as (c & Hc & Hs). exists c.
  by rewrite is_base_iff, <- elem_of_generate_ambiguity_variants.
Qed.

(** X12. The search returns nothing exactly when no two tokens in input
    order pass the priority rule and no variant of any concatenation of two
    tokens, of any token or of any fallback window is valid: it misses no
    candidate. *)
Theorem search_complete (group : list fragment) :
  extract_candidate_from_group group = Ok None
  <-> (forall i j a b,
         i < j -> cleaned_texts group !! i = Some a ->
         cleaned_texts group !! j = Some b ->
         ~ three_letters_five_digits (a ++ b)) /\
      (forall c v,
         is_base group c -> Forall2 is_variant c v ->
         validate_plate_format v <> Ok true).
Proof.
  rewrite extract_candidate_from_group_Ok.
  assert (Ok (search group) = Ok None <-> search group = None) as ->
    by (split; [by intros [= ->]|by intros ->]).
  rewrite search_None. apply Morphisms_Prop.and_iff_morphism.
  - split.
    + intros H i j a b Hij Ha Hb Hshape%priority_rule_spec.
      rewrite H in Hshape; [done|]. unfold pair_concats.
      apply list_elem_of_fmap. exists (a, b). split; [done|].
      apply elem_of_ordered_pairs. by exists i, j.
    + intros H c. unfold pair_concats.
      intros ([a b] & -> & (i & j & Hij & Ha & Hb)%elem_of_ordered_pairs)
        %list_elem_of_fmap.
      destruct (priority_rule _) eqn:Hp; [|done].
      apply priority_rule_spec in Hp. by destruct (H i j a b).
  - split.
    + intros H c v Hc%is_base_iff Hv%elem_of_generate_ambiguity_variants.
      rewrite validate_plate_format_Ok, (H c v) by done. done.
    + intros H c v Hc%is_base_iff Hv%elem_of_generate_ambiguity_variants.
      specialize (H c v Hc Hv). rewrite validate_plate_format_Ok in H.
      by destruct (valid v).
Qed.

(** ** The alphabet of the candidates *)

Lemma ambiguous_table_keeps :
  Forall (fun p => Forall (fun d => keeps d = true) p.2) ambiguous_table.
Proof. apply (bool_decide_eq_true_1 _). vm_compute. reflexivity. Qed.

Lemma is_variant_keeps (c d : char) :
  is_variant c d -> keeps c = true -> keeps d = true.
Proof.
  unfold is_variant. destruct (ambiguous_map !! c) as [vs|] eqn:Hc.
  - intros Hd _. apply ambiguous_map_lookup in Hc.
    pose proof ambiguous_table_keeps as Htable.
    rewrite Forall_forall in Htable. specialize (Htable (c, vs) Hc).
    rewrite Forall_forall in Htable. by apply Htable.
  - by intros ->.
Qed.

Lemma variants_keep (s v : str) :
  Forall2 is_variant s v ->
  Forall (fun c => keeps c = true) s -> Forall (fun c => keeps c = true) v.
Proof.
  induction 1 as [|c d s v Hcd _ IH]; [done|].
  intros [Hc Hs]%Forall_cons. constructor; [by eapply is_variant_keeps|auto].
Qed.

Lemma cleaned_texts_filter (group : list fragment) :
  cleaned_texts group = map (fun f => clean_text f.1.2) (filter survives group).
Proof.
  unfold cleaned_texts, original_texts.
  induction group as [|[[bbox t] p] g IH]; [done|].
  cbn [flat_map]. rewrite filter_cons, map_app, IH.
  pose proof (kept_survives (bbox, t, p)) as Hkept. cbn [fst snd] in Hkept.
  destruct (decide (survives (bbox, t, p))) as [Hs|Hs].
  - apply Hkept in Hs. by rewrite Hs.
  - destruct (Qle_bool _ _ && _); [|done]. destruct Hs. by apply Hkept.
Qed.

Lemma cleaned_texts_keep (group : list fragment) (t : str) :
  t ∈ cleaned_texts group -> Forall (fun c => keeps c = true) t.
Proof.
  rewrite cleaned_texts_filter. intros (f & -> & _)%list_elem_of_fmap.
  apply clean_text_keeps.
Qed.

Lemma fallback_texts_keep (group : list fragment) :
  Forall (fun c => keeps c = true) (concat (fallback_texts group)).
Proof.
  apply Forall_forall. intros c Hc%list_elem_of_In%in_concat.
  destruct Hc as (t & Ht%list_elem_of_In & Hc%list_elem_of_In).
  apply list_elem_of_filter in Ht as [_ Ht].
  apply list_elem_of_fmap in Ht as (f & -> & _).
  pose proof (clean_text_keeps f.1.2) as Hkeeps.
  rewrite Forall_forall in Hkeeps. by apply Hkeeps.
Qed.

Lemma is_base_keeps (group : list fragment) (c : str) :
  is_base group c -> Forall (fun c => keeps c = true) c.
Proof.
  intros [(i & j & a & b & _ & Ha & Hb & ->)|[Hc|(j & L & _ & _ & ->)]].
  - apply Forall_app. split; eapply cleaned_texts_keep, list_elem_of_lookup_2;
      eassumption.
  - by eapply cleaned_texts_keep.
  - apply Forall_take, Forall_drop, fallback_texts_keep.
Qed.

(** X13. A candidate that the search returns is made of the characters A-Z
    and 0-9 only. *)
Theorem search_alphabet (group : list fragment) (s : str) :
  extract_candidate_from_group group = Ok (Some s) ->
  Forall (fun c => (chr "A" <= c <= chr "Z")%N \/ (chr "0" <= c <= chr "9")%N) s.
Proof.
  rewrite extract_candidate_from_group_Ok. intros [= Hs].
  apply search_Some_base in Hs as (c & Hc%is_base_iff & Hs).
  apply elem_of_generate_ambiguity_variants in Hs.
  eapply Forall_impl; [|apply keeps_range].
  eapply variants_keep; [exact Hs|]. by eapply is_base_keeps.
Qed.

Lemma alpha_digit_disjoint (c : char) :
  keeps c = true -> char_isalpha c = true -> char_isdigit c = true -> False.
Proof.
  intros Hk. unfold char_isalpha, char_isdigit.
  rewrite (keeps_ascii c Hk). intros Ha Hd.
  bool_to_Prop Ha. bool_to_Prop Hd. lia.
Qed.

Lemma priority_not_valid (s : str) :
  Forall (fun c => keeps c = true) s -> priority_rule s = true ->
  valid s = false.
Proof.
  intros Hkeeps (Hlen & Halpha & _)%priority_rule_spec.
  destruct (valid s) eqn:Hvalid; [exfalso|done].
  apply valid_grammar in Hvalid
    as [(? & _)|[(? & _)|(_ & _ & Hdigits & _)]]; [lia..|].
  destruct s as [|c0 [|c1 s]]; [done..|].
  apply Forall_cons in Hkeeps as [_ [Hk _]%Forall_cons].
  unfold alphabetic in Halpha. unfold digits in Hdigits.
  cbn [take drop] in Halpha, Hdigits.
  apply Forall_cons in Halpha as [_ [Ha _]%Forall_cons].
  apply Forall_cons in Hdigits as [Hd _].
  by eapply alpha_digit_disjoint.
Qed.

(** X14. What the priority rule returns is never a plate for the format
    validator; it is the result of the search all the same. *)
Theorem priority_result_invalid (group : list fragment) (s : str) :
  priority_pairs (cleaned_texts group) = Ok (Some s) ->
  validate_plate_format s = Ok false /\
  extract_candidate_from_group group = Ok (Some s).
Proof.
  intros Hprio. split.
  - rewrite priority_pairs_Ok in Hprio. injection Hprio as Hfind.
    apply find_Some_elem_of in Hfind as [Hs Hrule].
    rewrite validate_plate_format_Ok. f_equal.
    apply priority_not_valid; [|done].
    eapply is_base_keeps, is_base_iff.
    by apply elem_of_app; left; apply pair_concats_permuted.
  - unfold extract_candidate_from_group. by rewrite Hprio.
Qed.

(** ** Fragments that do not count *)

Lemma fallback_texts_cons (f : fragment) (group : list fragment) :
  fallback_texts (f :: group)
  = (if should_ignore (clean_text f.1.2) then [] else [clean_text f.1.2])
    ++ fallback_texts group.
Proof.
  unfold fallback_texts. cbn [map]. rewrite filter_cons.
  destruct (should_ignore (clean_text f.1.2)) eqn:Hi.
  - destruct (decide _) as [H|_]; [|done]. exfalso. apply H. exact I.
  - destruct (decide _) as [_|H]; [done|]. exfalso. apply H. intros [].
Qed.

(** X15. A fragment whose normalized text is an ignored word or has more
    than 8 characters can be left out of the input: the tokens, the fallback
    texts and the result of the search are the same without it.  A fragment
    below the minimum confidence can be left out as far as the tokens of
    tiers 1 to 6 are concerned. *)
Theorem ignored_fragments_removable (group : list fragment) :
  let kept :=
    filter (fun f : fragment =>
              (clean_text f.1.2 ∉ ignore_words)
              /\ length (clean_text f.1.2) <= 8) group in
  cleaned_texts kept = cleaned_texts group /\
  fallback_texts kept = fallback_texts group /\
  extract_candidate_from_group kept = extract_candidate_from_group group /\
  cleaned_texts
    (filter (fun f : fragment => (min_confidence self <= f.2)%Q) group)
  = cleaned_texts group.
Proof.
  intros kept.
  assert (cleaned_texts kept = cleaned_texts group) as Hcleaned.
  { rewrite !cleaned_texts_filter. subst kept. f_equal.
    rewrite list_filter_filter. apply list_filter_iff.
    intros f. unfold survives. tauto. }
  assert (fallback_texts kept = fallback_texts group) as Hfallback.
  { subst kept. clear Hcleaned. induction group as [|f g IH]; [done|].
    rewrite filter_cons, (fallback_texts_cons f g).
    destruct (should_ignore (clean_text f.1.2)) eqn:Hi.
    - destruct (decide _) as [H%should_ignore_false|_]; [congruence|].
      exact IH.
    - destruct (decide _) as [_|H]; [|by destruct H; apply should_ignore_false].
      by rewrite fallback_texts_cons, Hi, IH. }
  split_and!; [done|done| |].
  - unfold extract_candidate_from_group, fallback.
    by rewrite Hcleaned, Hfallback.
  - rewrite !cleaned_texts_filter. f_equal.
    rewrite list_filter_filter. apply list_filter_iff.
    intros f. unfold survives. tauto.
Qed.

(** ** Raw concatenations *)

Lemma pairs_loop_first (cleaned : list str) (k : str -> result (option str))
    (i j : nat) (a b v : str) :
  cleaned !! i = Some a -> cleaned !! j = Some b -> i < j ->
  k (a ++ b) = Ok (Some v) ->
  (forall i' j' a' b',
     i' < j' -> i' < i \/ (i' = i /\ j' < j) ->
     cleaned !! i' = Some a' -> cleaned !! j' = Some b' ->
     k (a' ++ b') = Ok None) ->
  for_in (range (len cleaned)) (fun i =>
    for_in (range2 (Z.of_nat i + 1) (len cleaned)) (fun j =>
      a ← getitem cleaned i;
      b ← getitem cleaned j;
      let raw_combined := a ++ b in
      k raw_combined))
  = Ok (Some v).
Proof.
  intros Ha Hb Hij Hhit Hearlier.
  pose proof (lookup_lt_Some _ _ _ Ha) as Hi.
  pose proof (lookup_lt_Some _ _ _ Hb) as Hj.
  assert (forall i' j', i' < j' < length cleaned ->
            i' < i \/ (i' = i /\ j' < j) ->
            (a ← getitem cleaned i'; b ← getitem cleaned j';
             let raw_combined := a ++ b in k raw_combined)
            = Ok None) as Hnone.
  { intros i' j' Hlt Hbefore.
    destruct (lookup_lt_is_Some_2 cleaned i') as [a' Ha']; [lia|].
    destruct (lookup_lt_is_Some_2 cleaned j') as [b' Hb']; [lia|].
    unfold getitem. rewrite Ha', Hb'. cbn [mbind result_bind].
    apply (Hearlier i' j'); [lia|done..]. }
  rewrite range_len, (seq_split_at 0 (length cleaned) i) by lia.
  apply for_in_first.
  - intros i' Hi'%elem_of_seq. rewrite range2_len.
    apply for_in_fall_through. intros j' Hj'%elem_of_seq. apply Hnone; lia.
  - rewrite range2_len, (seq_split_at (S i) (length cleaned - S i) j) by lia.
    apply for_in_first.
    + intros j' Hj'%elem_of_seq. apply Hnone; lia.
    + unfold getitem. by rewrite Ha, Hb.
Qed.

Lemma priority_pairs_None (cleaned : list str) :
  (forall i j a b,
     i < j -> cleaned !! i = Some a -> cleaned !! j = Some b ->
     ~ three_letters_five_digits (a ++ b)) ->
  find priority_rule (pair_concats cleaned) = None.
Proof.
  intros H. apply find_None. unfold pair_concats.
  intros c ([a b] & -> & (i & j & Hij & Ha & Hb)%elem_of_ordered_pairs)
    %list_elem_of_fmap.
  destruct (priority_rule _) eqn:Hp; [|done].
  apply priority_rule_spec in Hp. by destruct (H i j a b).
Qed.

(** X16. When no two tokens in input order pass the priority rule, the
    first pair of tokens, in the order of the positions [(i, j)] with
    [i < j], whose concatenation is valid decides the search: the
    concatenation is returned as it is. *)
Theorem raw_pairs_first_pair (group : list fragment) (i j : nat) (a b : str) :
  cleaned_texts group !! i = Some a ->
  cleaned_texts group !! j = Some b ->
  i < j ->
  (forall i' j' a' b',
     i' < j' ->
     cleaned_texts group !! i' = Some a' ->
     cleaned_texts group !! j' = Some b' ->
     ~ three_letters_five_digits (a' ++ b')) ->
  validate_plate_format (a ++ b) = Ok true ->
  (forall i' j' a' b',
     i' < j' -> i' < i \/ (i' = i /\ j' < j) ->
     cleaned_texts group !! i' = Some a' ->
     cleaned_texts group !! j' = Some b' ->
     validate_plate_format (a' ++ b') = Ok false) ->
  raw_pairs (cleaned_texts group) = Ok (Some (a ++ b)) /\
  extract_candidate_from_group group = Ok (Some (a ++ b)).
Proof.
  intros Ha Hb Hij Hprio Hvalid Hearlier.
  assert (raw_pairs (cleaned_texts group) = Ok (Some (a ++ b))) as Hraw.
  { apply (pairs_loop_first _ return_if_valid i j a b); [done..| |].
    - unfold return_if_valid. by rewrite Hvalid.
    - intros i' j' a' b' Hlt Hbefore Ha' Hb'. unfold return_if_valid.
      by rewrite (Hearlier i' j' a' b'). }
  split; [done|]. unfold extract_candidate_from_group.
  by rewrite priority_pairs_Ok, priority_pairs_None, and_then_None, Hraw.
Qed.

(** X17. When no two tokens in input order pass the priority rule and
    some two tokens, in either order, concatenate into a valid plate, the
    search returns such a concatenation as it was read, without any
    correction. *)
Theorem raw_concatenation_preferred (group : list fragment) :
  (forall i j a b,
     i < j ->
     cleaned_texts group !! i = Some a ->
     cleaned_texts group !! j = Some b ->
     ~ three_letters_five_digits (a ++ b)) ->
  (exists i j a b,
     i <> j /\ cleaned_texts group !! i = Some a /\
     cleaned_texts group !! j = Some b /\
     validate_plate_format (a ++ b) = Ok true) ->
  exists i j a b,
    i <> j /\ cleaned_texts group !! i = Some a /\
    cleaned_texts group !! j = Some b /\
    validate_plate_format (a ++ b) = Ok true /\
    extract_candidate_from_group group = Ok (Some (a ++ b)).
Proof.
  intros Hprio (i & j & a & b & Hne & Ha & Hb & Hvalid).
  rewrite validate_plate_format_Ok in Hvalid. injection Hvalid as Hvalid.
  assert (exists r, (find valid (pair_concats (cleaned_texts group)) = Some r
                     \/ (find valid (pair_concats (cleaned_texts group)) = None
                         /\ find valid (permuted_concats (cleaned_texts group))
                            = Some r))) as (r & Hr).
  { destruct (find valid (pair_concats _)) as [r|]; [by exists r; left|].
    destruct (find valid (permuted_concats _)) as [r|] eqn:Hperm;
      [exists r; by right|].
    rewrite find_None in Hperm. rewrite Hperm in Hvalid; [done|].
    unfold permuted_concats. apply list_elem_of_fmap. exists (a, b).
    split; [done|]. apply elem_of_permutations2. by exists i, j. }
  assert (r ∈ permuted_concats (cleaned_texts group) /\ valid r = true)
    as [Hin Hvr].
  { destruct Hr as [[Hin ?]%find_Some_elem_of|[_ Hr%find_Some_elem_of]];
      [|done]. split; [by apply pair_concats_permuted|done]. }
  unfold permuted_concats in Hin.
  apply list_elem_of_fmap in Hin
    as ([a' b'] & -> & (i' & j' & Hne' & Ha' & Hb')%elem_of_permutations2).
  cbn [fst snd] in Hr, Hvr.
  exists i', j', a', b'. split_and!; [done..| |].
  - by rewrite validate_plate_format_Ok, Hvr.
  - rewrite extract_candidate_from_group_Ok. f_equal. unfold search.
    rewrite priority_pairs_None by done. cbn [or_else].
    by destruct Hr as [->|[-> ->]].
Qed.

(** ** ASCII text *)

Lemma clean_text_ascii_eq (text : str) :
  Forall (fun c => is_ascii c = true) text ->
  clean_text text = re_sub_non_alnum (upper text).
Proof.
  intros Hascii. unfold clean_text, normalize_NFKD.
  apply forallb_eq_true in Hascii as Hb. rewrite Hb.
  unfold encode_ascii_ignore. rewrite filter_all; [done|].
  eapply Forall_impl; [exact Hascii|]. intros c. apply Is_true_true.
Qed.

Lemma upper_char_ascii (c : char) :
  is_ascii c = true -> is_ascii (upper_char c) = true.
Proof.
  unfold upper_char, is_ascii. destruct (is_lower_az c); [|done].
  rewrite !N.ltb_lt. lia.
Qed.

Lemma upper_char_idempotent (c : char) :
  upper_char (upper_char c) = upper_char c.
Proof.
  unfold upper_char. destruct (is_lower_az c) eqn:Hlow.
  - replace (is_lower_az (c - 32)) with false; [done|].
    symmetry. bool_to_Prop Hlow. unfold is_lower_az, in_range.
    apply andb_false_iff. rewrite N.leb_gt. left. lia.
  - by rewrite Hlow.
Qed.

End Recognizer.

(** X18. On ASCII text the normalizer works character by character,
    whatever the Unicode tables: the normal form of a concatenation is the
    concatenation of the normal forms, and the case of the letters does not
    matter. *)
Theorem clean_text_ascii (U1 U2 : UnicodeData) (a b : list N) :
  Forall (fun c => is_ascii c = true) a ->
  Forall (fun c => is_ascii c = true) b ->
  @clean_text U1 (a ++ b) = @clean_text U1 a ++ @clean_text U1 b /\
  @clean_text U1 a = @clean_text U2 a /\
  @clean_text U1 (upper a) = @clean_text U1 a.
Proof.
  intros Ha Hb. split_and!.
  - rewrite !clean_text_ascii_eq by (rewrite ?Forall_app; done).
    unfold re_sub_non_alnum, upper. by rewrite map_app, filter_app.
  - by rewrite !clean_text_ascii_eq.
  - rewrite !clean_text_ascii_eq; [|done|].
    + f_equal. unfold upper. rewrite map_map. apply map_ext.
      intros c. apply upper_char_idempotent.
    + unfold upper. apply Forall_fmap. eapply Forall_impl; [exact Ha|].
      intros c. apply upper_char_ascii.
Qed.

(** X19. The gap that the recognizer is configured with is never used:
    two recognizers with the same minimum confidence give the same tokens,
    the same candidate and the same answer. *)
Theorem max_horizontal_gap_unused {U : UnicodeData}
    (self1 self2 : ArgentinePlateRecognizer) :
  min_confidence self1 = min_confidence self2 ->
  (forall group,
     extract_candidate_from_group self1 group
     = extract_candidate_from_group self2 group) /\
  (forall image_path file,
     recognize_plate self1 image_path file
     = recognize_plate self2 image_path file).
Proof.
  intros Hmin.
  assert (forall group, cleaned_texts self1 group = cleaned_texts self2 group)
    as Hcleaned.
  { intros group. unfold cleaned_texts, original_texts. by rewrite Hmin. }
  assert (forall group,
            extract_candidate_from_group self1 group
            = extract_candidate_from_group self2 group) as Hextract.
  { intros group. unfold extract_candidate_from_group. by rewrite Hcleaned. }
  split; [done|]. intros image_path [| |results]; [done..|].
  cbn [recognize_plate]. destruct (group_close_texts results); [|done].
  cbn [mbind result_bind]. by rewrite Hextract.
Qed.

Lemma sublist_map {A B} (f : A -> B) (l1 l2 : list A) :
  l1 `sublist_of` l2 -> map f l1 `sublist_of` map f l2.
Proof. induction 1; cbn [map]; by constructor. Qed.

(** X20. Raising the minimum confidence only removes tokens: the tokens
    under a higher minimum are among the tokens under a lower one, in the
    same order. *)
Theorem min_confidence_monotone {U : UnicodeData}
    (self1 self2 : ArgentinePlateRecognizer) (group : list fragment) :
  (min_confidence self1 <= min_confidence self2)%Q ->
  cleaned_texts self2 group `sublist_of` cleaned_texts self1 group.
Proof.
  intros Hmin. rewrite !cleaned_texts_filter.
  replace (filter (survives self2) group)
    with (filter (survives self2) (filter (survives self1) group)).
  - apply sublist_map, sublist_filter.
  - rewrite list_filter_filter. apply list_filter_iff. intros f.
    unfold survives. split; [by intros [? _]|]. intros (Hconf & ? & ?).
    split_and!; [done..| |done|done]. by eapply Qle_trans.
Qed.

Lemma find_first {A} (f : A -> bool) (l : list A) (i : nat) (x : A) :
  l !! i = Some x -> f x = true ->
  (forall i' y, i' < i -> l !! i' = Some y -> f y = false) ->
  find f l = Some x.
Proof.
  revert i. induction l as [|z l IH]; intros i Hi Hx Hbefore; [done|].
  cbn [find]. destruct i as [|i].
  - injection Hi as ->. by rewrite Hx.
  - rewrite (Hbefore 0 z) by (done || lia). apply (IH i); [done..|].
    intros i' y Hlt Hy. apply (Hbefore (S i') y); [lia|done].
Qed.

(** X21. When no two tokens in input order pass the priority rule and no
    variant of a concatenation of two tokens is valid, the first token that
    is valid decides the search and is returned as it is. *)
Theorem individual_first_token {U : UnicodeData}
    (self : ArgentinePlateRecognizer) (group : list fragment)
    (i : nat) (t : list N) :
  (forall i' j' a b,
     i' < j' ->
     cleaned_texts self group !! i' = Some a ->
     cleaned_texts self group !! j' = Some b ->
     ~ three_letters_five_digits (a ++ b)) ->
  (forall i' j' a b v,
     i' <> j' ->
     cleaned_texts self group !! i' = Some a ->
     cleaned_texts self group !! j' = Some b ->
     Forall2 is_variant (a ++ b) v ->
     validate_plate_format v = Ok false) ->
  cleaned_texts self group !! i = Some t ->
  validate_plate_format t = Ok true ->
  (forall i' t',
     i' < i -> cleaned_texts self group !! i' = Some t' ->
     validate_plate_format t' = Ok false) ->
  extract_candidate_from_group self group = Ok (Some t).
Proof.
  intros Hprio Hpairs Ht Hvalid Hbefore.
  assert (forall c v,
            c ∈ permuted_concats (cleaned_texts self group) ->
            v ∈ generate_ambiguity_variants c -> valid v = false) as Hnone.
  { unfold permuted_concats.
    intros c v ([a b] & -> & (i' & j' & Hne & Ha & Hb)%elem_of_permutations2)
      %list_elem_of_fmap Hv%elem_of_generate_ambiguity_variants.
    specialize (Hpairs i' j' a b v Hne Ha Hb Hv).
    rewrite validate_plate_format_Ok in Hpairs. by injection Hpairs. }
  rewrite extract_candidate_from_group_Ok. f_equal. unfold search.
  rewrite priority_pairs_None by done.
  replace (find valid (pair_concats _)) with (@None (list N)).
  2:{ symmetry. apply find_None. intros c Hc%pair_concats_permuted.
      apply (Hnone c c Hc), generate_ambiguity_variants_self. }
  replace (find valid (permuted_concats _)) with (@None (list N)).
  2:{ symmetry. apply find_None. intros c Hc.
      apply (Hnone c c Hc), generate_ambiguity_variants_self. }
  replace (find valid (flat_map _ (permuted_concats _))) with (@None (list N)).
  2:{ symmetry. apply find_None.
      intros v (c & Hc & Hv)%elem_of_flat_map_variants. by apply (Hnone c v). }
  cbn [or_else]. rewrite (find_first valid _ i t); [done..| |].
  - rewrite validate_plate_format_Ok in Hvalid. by injection Hvalid.
  - intros i' t' Hlt Ht'. specialize (Hbefore i' t' Hlt Ht').
    rewrite validate_plate_format_Ok in Hbefore. by injection Hbefore.
Qed.

Lemma recognize_plate_Readable_cases {U : UnicodeData}
    (self : ArgentinePlateRecognizer) (image_path : list N) results :
  recognize_plate self image_path (Readable results) = Raise ValueError
  \/ recognize_plate self image_path (Readable results) = Ok not_found
  \/ exists s, recognize_plate self image_path (Readable results) = Ok s
               /\ length s <= 8.
Proof.
  cbn [recognize_plate].
  destruct (boxes_empty_or_not results) as [Hboxes|Hempty].
  - destruct (group_close_texts_keyed results Hboxes) as (sorted & -> & _).
    cbn [mbind result_bind]. rewrite extract_candidate_from_group_Ok.
    cbn [mbind result_bind].
    destruct (search self _) as [s|] eqn:Hs; [|by right; left].
    destruct (truthy (Some s)); [|by right; left].
    right; right. exists s. split; [done|].
    apply search_length in Hs. lia.
  - left. unfold group_close_texts. by rewrite with_keys_Raise.
Qed.

(** X22. The answer tells the failures apart: the message for a missing
    file, the message for an unreadable one and whatever a readable image
    gives are different strings, and each message determines the path it
    names. *)
Theorem recognize_plate_tells_failures {U : UnicodeData}
    (self : ArgentinePlateRecognizer) (p q : list N) results :
  recognize_plate self p NoSuchFile <> recognize_plate self q Unreadable /\
  recognize_plate self p (Readable results)
    <> recognize_plate self q NoSuchFile /\
  recognize_plate self p (Readable results)
    <> recognize_plate self q Unreadable /\
  (recognize_plate self p NoSuchFile = recognize_plate self q NoSuchFile ->
   p = q) /\
  (recognize_plate self p Unreadable = recognize_plate self q Unreadable ->
   p = q).
Proof.
  assert (forall m : list N,
            (m = missing_message q \/ m = unreadable_message q) ->
            recognize_plate self p (Readable results) <> Ok m) as Hreadable.
  { intros m Hm Heq.
    destruct (recognize_plate_Readable_cases self p results)
      as [Hr|[Hr|(s & Hr & Hlen)]]; rewrite Hr in Heq; [done| |].
    - injection Heq as <-.
      by destruct Hm as [Hm|Hm]; apply (f_equal head) in Hm;
        vm_compute in Hm.
    - injection Heq as ->. unfold missing_message, unreadable_message in Hm.
      destruct Hm as [-> | ->]; rewrite !length_app in Hlen;
        vm_compute (length (py _)) in Hlen; lia. }
  split_and!.
  - cbn [recognize_plate]. unfold missing_message, unreadable_message.
    intros H.
    apply (f_equal (fun r => match r with
                             | Ok m => m !! 7
                             | Raise _ => None
                             end)) in H.
    by vm_compute in H.
  - change (recognize_plate self q NoSuchFile) with (Ok (missing_message q)).
    apply Hreadable. by left.
  - change (recognize_plate self q Unreadable)
      with (Ok (unreadable_message q)).
    apply Hreadable. by right.
  - cbn [recognize_plate]. unfold missing_message. intros H.
    assert (Ok_inj : forall x y : list N, Ok x = Ok y -> x = y)
      by (by intros x y [= ->]).
    by apply Ok_inj, app_inv_head, app_inv_tail in H.
  - cbn [recognize_plate]. unfold unreadable_message. intros H.
    assert (Ok_inj : forall x y : list N, Ok x = Ok y -> x = y)
      by (by intros x y [= ->]).
    by apply Ok_inj, app_inv_head, app_inv_tail in H.
Qed.

(** * Examples

    The statements below are closed: they run the recognizer that
    [ArgentinePlateRecognizer()] builds on sample OCR results. *)

(** Whatever the Unicode tables, the priority rule returns a string that
    the format validator rejects. *)
Lemma priority_result_any_tables (U : UnicodeData) :
  extract_candidate_from_group default_recognizer priority_group
    = Ok (Some (py "ABC12345")) /\
  validate_plate_format (py "ABC12345") = Ok false.
Proof. by vm_compute. Qed.

#[local] Existing Instance ascii_tables.

Example validate_examples :
  validate_plate_format (py "ABC123") = Ok true /\
  validate_plate_format (py "AB123CD") = Ok true /\
  validate_plate_format (py "A123BCD") = Ok true /\
  validate_plate_format (py "A123BCDE") = Ok true /\
  validate_plate_format (py "1BC123") = Ok false.
Proof. by vm_compute. Qed.

Example variants_example :
  generate_ambiguity_variants (py "O0")
  = map py ["O0"; "OO"; "OD"; "00"; "0O"; "0D"; "D0"; "DO"; "DD"]%string.
Proof. by vm_compute. Qed.

Example standard_example :
  extract_candidate_from_group default_recognizer standard_group
  = Ok (Some (py "AB123CD")).
Proof. by vm_compute. Qed.

Example ambiguity_example :
  extract_candidate_from_group default_recognizer
    [ (box 10, py "O8C", 9 # 10); (box 40, py "45Z", 8 # 10) ]
  = Ok (Some (py "OBC452")).
Proof. by vm_compute. Qed.

Example ignore_example :
  cleaned_texts default_recognizer
    [ (box 10, py "Mercosur", 9 # 10); (box 40, py "AB 123 CD", 9 # 10) ]
  = [ py "AB123CD" ].
Proof. by vm_compute. Qed.


(** A search that Tier 1 decides although Tier 2 matches an earlier pair. *)
Lemma precedence_earlier_pairs (i' j' : nat) (a' b' : list N) :
  i' < j' -> i' < 2 \/ (i' = 2 /\ j' < 3) ->
  cleaned_texts default_recognizer precedence_group !! i' = Some a' ->
  cleaned_texts default_recognizer precedence_group !! j' = Some b' ->
  ~ three_letters_five_digits (a' ++ b').
Proof.
  intros Hlt Hbefore Ha' Hb' Hshape%priority_rule_spec.
  destruct i' as [|[|[|i']]]; [| | |lia];
    (destruct j' as [|[|[|[|j']]]]; [try lia..|by vm_compute in Hb']);
    vm_compute in Ha', Hb'; injection Ha' as <-; injection Hb' as <-;
    by vm_compute in Hshape.
Qed.

Lemma priority_rule_first_pair_witness :
  raw_pairs (cleaned_texts default_recognizer precedence_group)
    = Ok (Some (py "AB123CD")) /\
  priority_pairs (cleaned_texts default_recognizer precedence_group)
    = Ok (Some (py "ABC12345")) /\
  extract_candidate_from_group default_recognizer precedence_group
    = Ok (Some (py "ABC12345")).
Proof.
  split; [vm_compute; reflexivity|].
  apply (priority_rule_first_pair default_recognizer precedence_group 2 3
           (py "ABC") (py "12345")).
  - vm_compute; reflexivity.
  - vm_compute; reflexivity.
  - lia.
  - apply priority_rule_spec. vm_compute; reflexivity.
  - apply precedence_earlier_pairs.
Defined.

Lemma validate_plate_format_grammar_witness :
  validate_plate_format (py "ABCD") = Ok false.
Proof.
  apply (validate_plate_format_grammar (py "ABCD"));
    vm_compute; discriminate.
Defined.

Lemma fallback_sliding_window_witness :
  extract_candidate_from_group default_recognizer faint_group
    = fallback faint_group /\
  fallback faint_group = Ok (Some (py "AB123CD")).
Proof.
  split; [|vm_compute; reflexivity].
  apply (fallback_sliding_window default_recognizer faint_group);
    vm_compute; reflexivity.
Defined.

Lemma cleaned_texts_survivors_witness :
  cleaned_texts default_recognizer [ (box 10, py "AB123CD", 1 # 2) ]
  = [ py "AB123CD" ].
Proof.
  apply (proj2 (cleaned_texts_survivors default_recognizer [])
           (box 10) (py "AB123CD")).
  - apply (bool_decide_eq_true_1 _). vm_compute; reflexivity.
  - vm_compute. lia.
Defined.


Lemma search_falls_through_witness :
  extract_candidate_from_group default_recognizer hello_group = Ok None /\
  recognize_plate default_recognizer (py "real_plate.jpg") (Readable hello_group)
    = Ok not_found.
Proof.
  split.
  - apply (search_falls_through default_recognizer hello_group);
      vm_compute; reflexivity.
  - apply (search_falls_through default_recognizer hello_group) with
      (groups := [hello_group]); vm_compute; reflexivity.
Defined.

Lemma ambiguous_map_reflexive_symmetric_witness :
  chr "0" ∈ py "0OD" /\ (chr "O" ∈ py "0OD" <-> chr "0" ∈ py "O0D").
Proof.
  split.
  - apply (proj1 ambiguous_map_reflexive_symmetric (chr "0")).
    vm_compute; reflexivity.
  - apply (proj2 ambiguous_map_reflexive_symmetric (chr "0") (chr "O"));
      vm_compute; reflexivity.
Defined.

Lemma candidate_is_truthy_witness :
  truthy (Some (py "AB123CD")) = true /\
  recognize_plate default_recognizer (py "real_plate.jpg")
    (Readable standard_group) = Ok (py "AB123CD").
Proof.
  assert (extract_candidate_from_group default_recognizer standard_group
          = Ok (Some (py "AB123CD"))) as Hfound by (vm_compute; reflexivity).
  destruct (candidate_is_truthy default_recognizer standard_group
              (py "AB123CD") Hfound) as (_ & _ & Htruthy & Hrec).
  split; [exact Htruthy|].
  apply (Hrec _ _ (map (fun res => [res]) standard_group));
    vm_compute; reflexivity.
Defined.

(** The priority rule returns a string that the format validator rejects. *)
Lemma priority_result_fails_validator :
  extract_candidate_from_group default_recognizer priority_group
    = Ok (Some (py "ABC12345")) /\
  recognize_plate default_recognizer (py "real_plate.jpg")
    (Readable priority_group) = Ok (py "ABC12345") /\
  validate_plate_format (py "ABC12345") = Ok false.
Proof. by vm_compute. Qed.

Lemma recognize_plate_result_witness :
  6 <= length (py "ABC12345") <= 8 /\
  (validate_plate_format (py "ABC12345") = Ok true \/
   (priority_pairs (cleaned_texts default_recognizer priority_group)
      = Ok (Some (py "ABC12345")) /\
    alphabetic (take 3 (py "ABC12345")) /\
    digits (drop 3 (py "ABC12345")))).
Proof.
  apply (proj1 (recognize_plate_result default_recognizer) priority_group).
  vm_compute; reflexivity.
Defined.

(** ** The further properties, on the sample results *)

Lemma min_y_least_witness :
  (exists pt, pt ∈ box 10 /\ (10 # 1)%Q = pt.2) /\
  Forall (fun pt => (10 # 1 <= pt.2)%Q) (box 10).
Proof. apply (min_y_least (box 10) (10 # 1)). vm_compute; reflexivity. Defined.

Lemma group_close_texts_singletons_witness :
  length (map (fun res => [res]) priority_group) = length shuffled_group /\
  Forall (fun group => length group = 1) (map (fun res => [res]) priority_group) /\
  concat (map (fun res => [res]) priority_group) ≡ₚ shuffled_group.
Proof.
  apply (group_close_texts_singletons shuffled_group).
  vm_compute; reflexivity.
Defined.

Lemma group_close_texts_sorted_witness :
  StronglySorted not_below (concat (map (fun res => [res]) priority_group)).
Proof.
  apply (group_close_texts_sorted shuffled_group).
  vm_compute; reflexivity.
Defined.

Lemma group_close_texts_stable_witness :
  (forall k : Q,
     filter (fun f => (top f == k)%Q) (concat (map (fun res => [res]) level_group))
     = filter (fun f => (top f == k)%Q) level_group) /\
  (StronglySorted not_below level_group ->
   concat (map (fun res => [res]) level_group) = level_group).
Proof.
  apply (group_close_texts_stable level_group).
  vm_compute; reflexivity.
Defined.

Lemma priority_group_heights (f g : list (Q * Q) * list N * Q) :
  f ∈ priority_group -> g ∈ priority_group -> (top f == top g)%Q -> f = g.
Proof.
  unfold priority_group. rewrite !elem_of_cons, !elem_of_nil.
  intros [-> | [-> | []]] [-> | [-> | []]] Heq; try reflexivity;
    by vm_compute in Heq.
Qed.

Lemma group_close_texts_order_witness :
  group_close_texts shuffled_group = group_close_texts priority_group /\
  (forall image_path,
     recognize_plate default_recognizer image_path (Readable shuffled_group)
     = recognize_plate default_recognizer image_path (Readable priority_group)).
Proof.
  apply (group_close_texts_order default_recognizer priority_group
           shuffled_group).
  - apply perm_swap.
  - apply priority_group_heights.
Defined.

Lemma generate_ambiguity_variants_classes_witness :
  py "O0" ∈ generate_ambiguity_variants (py "D0") /\
  (forall w, w ∈ generate_ambiguity_variants (py "D0")
             <-> w ∈ generate_ambiguity_variants (py "O0")) /\
  generate_ambiguity_variants (py "D0") ≡ₚ generate_ambiguity_variants (py "O0").
Proof.
  apply (generate_ambiguity_variants_classes (py "O0") (py "D0")).
  apply (bool_decide_eq_true_1 _). vm_compute; reflexivity.
Defined.

Lemma search_provenance_witness :
  exists c, is_base default_recognizer ambiguous_group c
            /\ Forall2 is_variant c (py "OBC452").
Proof.
  apply (search_provenance default_recognizer ambiguous_group (py "OBC452")).
  vm_compute; reflexivity.
Defined.

Lemma search_alphabet_witness :
  Forall (fun c => (chr "A" <= c <= chr "Z")%N \/ (chr "0" <= c <= chr "9")%N)
    (py "OBC452").
Proof.
  apply (search_alphabet default_recognizer ambiguous_group (py "OBC452")).
  vm_compute; reflexivity.
Defined.

Lemma priority_result_invalid_witness :
  validate_plate_format (py "ABC12345") = Ok false /\
  extract_candidate_from_group default_recognizer priority_group
    = Ok (Some (py "ABC12345")).
Proof.
  apply (priority_result_invalid default_recognizer priority_group).
  vm_compute; reflexivity.
Defined.

Local Ltac no_priority_pair :=
  let Hshape := fresh in
  intros [|[|?]] [|[|?]] ? ? ? Ha' Hb' Hshape%priority_rule_spec;
  try lia; vm_compute in Ha', Hb'; try discriminate;
  injection Ha' as <-; injection Hb' as <-; by vm_compute in Hshape.

Lemma reversed_group_no_priority (i j : nat) (a b : list N) :
  i < j ->
  cleaned_texts default_recognizer reversed_group !! i = Some a ->
  cleaned_texts default_recognizer reversed_group !! j = Some b ->
  ~ three_letters_five_digits (a ++ b).
Proof. revert i j a b. no_priority_pair. Qed.

(** A search that the third pair in input order decides: the two pairs
    before it are not plates. *)
Lemma trailing_group_no_priority (i j : nat) (a b : list N) :
  i < j ->
  cleaned_texts default_recognizer trailing_group !! i = Some a ->
  cleaned_texts default_recognizer trailing_group !! j = Some b ->
  ~ three_letters_five_digits (a ++ b).
Proof.
  intros Hlt Ha Hb Hshape%priority_rule_spec.
  destruct i as [|[|[|i]]]; [| | |by vm_compute in Ha];
    (destruct j as [|[|[|j]]]; [try lia..|by vm_compute in Hb]);
    vm_compute in Ha, Hb; injection Ha as <-; injection Hb as <-;
    by vm_compute in Hshape.
Qed.

Lemma trailing_group_earlier_pairs (i' j' : nat) (a' b' : list N) :
  i' < j' -> i' < 1 \/ (i' = 1 /\ j' < 2) ->
  cleaned_texts default_recognizer trailing_group !! i' = Some a' ->
  cleaned_texts default_recognizer trailing_group !! j' = Some b' ->
  validate_plate_format (a' ++ b') = Ok false.
Proof.
  intros Hlt Hbefore Ha' Hb'.
  destruct i' as [|[|i']]; [| |lia];
    (destruct j' as [|[|[|j']]]; [try lia..|by vm_compute in Hb']);
    vm_compute in Ha', Hb'; injection Ha' as <-; injection Hb' as <-;
    vm_compute; reflexivity.
Qed.

Lemma raw_pairs_first_pair_witness :
  raw_pairs (cleaned_texts default_recognizer trailing_group)
    = Ok (Some (py "AB1" ++ py "23CD")) /\
  extract_candidate_from_group default_recognizer trailing_group
    = Ok (Some (py "AB1" ++ py "23CD")).
Proof.
  apply (raw_pairs_first_pair default_recognizer trailing_group 1 2).
  - vm_compute; reflexivity.
  - vm_compute; reflexivity.
  - lia.
  - intros i' j' a' b' Hlt. by apply trailing_group_no_priority.
  - vm_compute; reflexivity.
  - apply trailing_group_earlier_pairs.
Defined.

Lemma raw_concatenation_preferred_witness :
  exists i j a b,
    i <> j /\
    cleaned_texts default_recognizer reversed_group !! i = Some a /\
    cleaned_texts default_recognizer reversed_group !! j = Some b /\
    validate_plate_format (a ++ b) = Ok true /\
    extract_candidate_from_group default_recognizer reversed_group
      = Ok (Some (a ++ b)).
Proof.
  apply (raw_concatenation_preferred default_recognizer reversed_group).
  - apply reversed_group_no_priority.
  - exists 1, 0, (py "AB1"), (py "23CD").
    split_and!; [lia|vm_compute; reflexivity..].
Defined.

Lemma clean_text_ascii_witness :
  clean_text (py "ab-1" ++ py "2 cd")
    = clean_text (py "ab-1") ++ clean_text (py "2 cd") /\
  clean_text (py "ab-1")
    = @clean_text {| unicode_isalpha := fun _ => true;
                     unicode_isdigit := fun _ => true;
                     unicode_nfkd := fun _ => [] |} (py "ab-1") /\
  clean_text (upper (py "ab-1")) = clean_text (py "ab-1").
Proof.
  apply (clean_text_ascii ascii_tables _ (py "ab-1") (py "2 cd"));
    by repeat constructor.
Defined.

Lemma max_horizontal_gap_unused_witness :
  (forall group,
     extract_candidate_from_group default_recognizer group
     = extract_candidate_from_group
         {| max_horizontal_gap := 0; min_confidence := 1 # 2 |} group) /\
  (forall image_path file,
     recognize_plate default_recognizer image_path file
     = recognize_plate
         {| max_horizontal_gap := 0; min_confidence := 1 # 2 |}
         image_path file).
Proof.
  apply (max_horizontal_gap_unused default_recognizer
           {| max_horizontal_gap := 0; min_confidence := 1 # 2 |}).
  reflexivity.
Defined.

Lemma min_confidence_monotone_witness :
  cleaned_texts {| max_horizontal_gap := 40; min_confidence := 85 # 100 |}
    standard_group
  `sublist_of` cleaned_texts default_recognizer standard_group.
Proof.
  apply (min_confidence_monotone default_recognizer
           {| max_horizontal_gap := 40; min_confidence := 85 # 100 |}
           standard_group).
  vm_compute. discriminate.
Defined.

(** A search that the second token decides: the token before it is not a
    plate, and the two concatenations have twelve characters, as their
    variants have. *)
Lemma word_group_no_priority (i j : nat) (a b : list N) :
  i < j ->
  cleaned_texts default_recognizer word_group !! i = Some a ->
  cleaned_texts default_recognizer word_group !! j = Some b ->
  ~ three_letters_five_digits (a ++ b).
Proof. revert i j a b. no_priority_pair. Qed.

Lemma word_group_pair_length (i j : nat) (a b : list N) :
  i <> j ->
  cleaned_texts default_recognizer word_group !! i = Some a ->
  cleaned_texts default_recognizer word_group !! j = Some b ->
  length (a ++ b) = 12.
Proof.
  intros Hne Ha Hb.
  destruct i as [|[|i]]; [| |by vm_compute in Ha];
    (destruct j as [|[|j]]; [try lia..|by vm_compute in Hb]);
    vm_compute in Ha, Hb; injection Ha as <-; injection Hb as <-;
    reflexivity.
Qed.

Lemma word_group_no_variant (i j : nat) (a b v : list N) :
  i <> j ->
  cleaned_texts default_recognizer word_group !! i = Some a ->
  cleaned_texts default_recognizer word_group !! j = Some b ->
  Forall2 is_variant (a ++ b) v ->
  validate_plate_format v = Ok false.
Proof.
  intros Hne Ha Hb Hv%Forall2_length.
  rewrite (word_group_pair_length i j a b) in Hv by done.
  rewrite validate_plate_format_Ok. f_equal.
  destruct (valid v) eqn:Hvalid; [|done].
  apply valid_length in Hvalid. lia.
Qed.

Lemma word_group_earlier_tokens (i' : nat) (t' : list N) :
  i' < 1 ->
  cleaned_texts default_recognizer word_group !! i' = Some t' ->
  validate_plate_format t' = Ok false.
Proof.
  intros Hlt Ht'. destruct i' as [|i']; [|lia].
  vm_compute in Ht'. injection Ht' as <-. vm_compute; reflexivity.
Qed.

Lemma individual_first_token_witness :
  extract_candidate_from_group default_recognizer word_group
  = Ok (Some (py "AB123CD")).
Proof.
  apply (individual_first_token default_recognizer word_group 1).
  - intros i' j' a b Hlt. by apply word_group_no_priority.
  - apply word_group_no_variant.
  - vm_compute; reflexivity.
  - vm_compute; reflexivity.
  - apply word_group_earlier_tokens.
Defined.

